(** * proxycache: the single-flight [Loader] of [proxy/loader.go]

    A shallow embedding of [src/proxy/loader.go] as an interleaving
    semantics: every goroutine is a program counter named after the source
    line it is about to execute, the shared [Loader] is a record, and one
    step of one goroutine is a function on the shared world.  The
    properties of the loader are invariants of the states reachable from
    [NewLoader]. *)

From Stdlib Require Import ZArith.
From Stdlib.Strings Require Import Byte.
From stdpp Require Import gmap strings list fin_maps.

Set Warnings "-clear-no-such-hyp".

(** ** Go data *)

(** Go's [int] on the 64-bit targets: arithmetic wraps around. *)
Definition int_max : Z := (2 ^ 63 - 1)%Z.
Definition int_wrap (z : Z) : Z := ((z + 2 ^ 63) `mod` 2 ^ 64 - 2 ^ 63)%Z.
Definition int_sub (a b : Z) : Z := int_wrap (a - b)%Z.

(** A [chan struct{}]: the elements carry no data, so a buffered channel
    is the number of elements queued and its capacity. *)
Record chan := Chan { chan_len : nat; chan_cap : nat }.

(** [<-c]: enabled when an element is queued. *)
Definition chan_recv (c : chan) : option chan :=
  match chan_len c with
  | O => None
  | S n => Some (Chan n (chan_cap c))
  end.

(** [c <- struct{}{}]: enabled while the buffer is not full. *)
Definition chan_send (c : chan) : option chan :=
  if decide (chan_len c < chan_cap c)%nat
  then Some (Chan (S (chan_len c)) (chan_cap c))
  else None.

(** What a call of the external [ProxyLoader.Load] does: it returns
    [(value, ok)], or it panics.  A [nil] slice and an empty one are both
    the empty list. *)
Inductive outcome :=
| Returns (value : list byte) (ok : bool)
| Panics.

(** [type ProxyLoader interface { Load(key string) (value []byte, ok bool) }]:
    an implementation is a type of states and a [Load] that may depend on
    the state and change it. *)
Class ProxyLoader (P : Type) := Load : P → string → outcome * P.

(** [type loadResult struct { done chan struct{}; value []byte; ok bool }].
    Nothing is ever sent on [done]; it is only closed, so the channel is
    the flag "closed". *)
Record loadResult := LoadResult {
  done : bool;
  value : list byte;
  ok : bool
}.

(** [&loadResult{done: make(chan struct{})}] *)
Definition new_loadResult : loadResult := LoadResult false [] false.

(** Pointers [*loadResult] are indices into the heap of records. *)
Abbreviation loc := nat (only parsing).

(** Modelled from the spec: the struct [proc] embedded in [Loader] is
    declared outside [loader.go]; the fields are the ones [loader.go]
    uses.  [start] is the pool of admission tokens, [quit] counts the
    shrink signals sent and not yet received (buffered, or held by a
    blocked sender), [proc_mtx] is the field [mtx] of [proc]. *)
Record proc := Proc {
  maxProc : Z;
  start : chan;
  quit : nat;
  proc_mtx : bool
}.

(** Modelled from the spec: [newProc] is defined outside [loader.go];
    the spec's Construct "initializes maxCapacity admission tokens, all
    available". *)
Definition newProc (maxProc : Z) : proc :=
  Proc maxProc (Chan (Z.to_nat maxProc) (Z.to_nat maxProc)) 0 false.

(** [type Loader struct { p ProxyLoader; *proc; mtx sync.Mutex;
    inFlight map[string]*loadResult }] *)
Record Loader (P : Type) := MkLoader {
  p : P;
  lproc : proc;
  mtx : bool;
  inFlight : gmap string loc
}.
Arguments MkLoader {P}.
Arguments p {P}.
Arguments lproc {P}.
Arguments mtx {P}.
Arguments inFlight {P}.

(** [type LoaderStatus struct { MaxLoaderProc, LoaderProc, InflightLoad int }] *)
Record LoaderStatus := MkStatus {
  MaxLoaderProc : Z;
  LoaderProc : Z;
  InflightLoad : Z
}.

(** ** Goroutines *)

(** A goroutine is the source line it is about to execute, with the
    locals in scope there.  [L] lines are in [Load], [S] lines in
    [Status], [B] lines in the goroutine started by [NewLoader]. *)
Inductive pc :=
| L48 (key : string)                       (* l.mtx.Lock() *)
| L49 (key : string)                       (* f, ok := l.inFlight[key] *)
| L50 (key : string) (f : loc)             (* l.mtx.Unlock() *)
| L51 (key : string) (f : loc)             (* <-f.done *)
| L52 (key : string) (f : loc)             (* read f.value *)
| L52ok (key : string) (f : loc) (v : list byte)  (* read f.ok; return *)
| L55 (key : string)                       (* f := &loadResult{...} *)
| L56 (key : string) (f : loc)             (* l.inFlight[key] = f *)
| L58 (key : string) (f : loc)             (* l.mtx.Unlock() *)
| L60 (key : string) (f : loc)             (* <-l.start *)
| L61 (key : string) (f : loc)             (* l.p.Load(key) *)
| L61value (key : string) (f : loc) (v : list byte) (b : bool) (* f.value = v *)
| L61ok (key : string) (f : loc) (b : bool)        (* f.ok = b *)
| L62 (key : string) (f : loc)             (* l.start <- struct{}{} *)
| L63 (key : string) (f : loc)             (* close(f.done) *)
| L65 (key : string) (f : loc)             (* l.mtx.Lock() *)
| L66 (key : string) (f : loc)             (* delete(l.inFlight, key) *)
| L67 (key : string) (f : loc)             (* l.mtx.Unlock() *)
| L69 (key : string) (f : loc)             (* read f.value *)
| L69ok (key : string) (f : loc) (v : list byte)  (* read f.ok; return *)
| LRet (key : string) (f : loc) (v : list byte) (b : bool)  (* returned (v, b) *)
| L61panic (key : string) (f : loc)        (* the panic of l.p.Load left Load *)
| L63panic (key : string) (f : loc)        (* close of a closed channel *)
| S81                                      (* l.mtx.Lock() *)
| S83                                      (* l.proc.mtx.Lock() *)
| S87                                      (* read l.proc.maxProc *)
| S88 (m : Z)                              (* read l.proc.maxProc *)
| S88len (m m' : Z)                        (* m' - len(l.proc.start) *)
| S89 (m lp : Z)                           (* len(l.inFlight) *)
| S84 (st : LoaderStatus)                  (* deferred l.proc.mtx.Unlock() *)
| S82 (st : LoaderStatus)                  (* deferred l.mtx.Unlock() *)
| SRet (st : LoaderStatus)                 (* returned st *)
| B31                                      (* <-l.quit *)
| B32.                                     (* <-l.start *)

(** The shared world: the loader, the heap of [loadResult] records, and
    two history variables that are not program state: [calls] lists the
    calls of [l.p.Load] made so far (for which record, with which key,
    with which outcome), [shrunk] counts the receives [<-l.start] the
    background goroutine has completed. *)
Record world (P : Type) := World {
  ldr : Loader P;
  heap : list loadResult;
  calls : list (loc * string * outcome);
  shrunk : nat
}.
Arguments World {P}.
Arguments ldr {P}.
Arguments heap {P}.
Arguments calls {P}.
Arguments shrunk {P}.

Definition state (P : Type) : Type := world P * list pc.

Section Semantics.
Context {P : Type} `{ProxyLoader P}.

Definition set_ldr (l : Loader P) (w : world P) : world P :=
  World l (heap w) (calls w) (shrunk w).
Definition set_heap (h : list loadResult) (w : world P) : world P :=
  World (ldr w) h (calls w) (shrunk w).
Definition set_mtx (b : bool) (w : world P) : world P :=
  set_ldr (MkLoader (p (ldr w)) (lproc (ldr w)) b (inFlight (ldr w))) w.
Definition set_inFlight (m : gmap string loc) (w : world P) : world P :=
  set_ldr (MkLoader (p (ldr w)) (lproc (ldr w)) (mtx (ldr w)) m) w.
Definition set_proc (q : proc) (w : world P) : world P :=
  set_ldr (MkLoader (p (ldr w)) q (mtx (ldr w)) (inFlight (ldr w))) w.
Definition set_start (c : chan) (w : world P) : world P :=
  let q := lproc (ldr w) in
  set_proc (Proc (maxProc q) c (quit q) (proc_mtx q)) w.
Definition set_quit (n : nat) (w : world P) : world P :=
  let q := lproc (ldr w) in
  set_proc (Proc (maxProc q) (start q) n (proc_mtx q)) w.
Definition set_proc_mtx (b : bool) (w : world P) : world P :=
  let q := lproc (ldr w) in
  set_proc (Proc (maxProc q) (start q) (quit q) b) w.

(** [sync.Mutex]: [Lock] is enabled when the mutex is free; [Unlock] of
    a free mutex is a fatal error that stops the program. *)
Definition lock (held : bool) : option bool :=
  if held then None else Some true.
Definition unlock (held : bool) : option bool :=
  if held then Some false else None.

(** One step of a goroutine at [t] in world [w]; [None] when the
    goroutine is blocked there (or has finished). *)
Definition step_thread (t : pc) (w : world P) : option (pc * world P) :=
  let l := ldr w in
  match t with
  (* Load *)
  | L48 key => b ← lock (mtx l); Some (L49 key, set_mtx b w)
  | L49 key =>
      match inFlight l !! key with
      | Some f => Some (L50 key f, w)
      | None => Some (L55 key, w)
      end
  | L50 key f => b ← unlock (mtx l); Some (L51 key f, set_mtx b w)
  | L51 key f =>
      r ← heap w !! f;
      if done r then Some (L52 key f, w) else None
  | L52 key f => r ← heap w !! f; Some (L52ok key f (value r), w)
  | L52ok key f v => r ← heap w !! f; Some (LRet key f v (ok r), w)
  | L55 key =>
      Some (L56 key (length (heap w)), set_heap (heap w ++ [new_loadResult]) w)
  | L56 key f => Some (L58 key f, set_inFlight (<[key := f]> (inFlight l)) w)
  | L58 key f => b ← unlock (mtx l); Some (L60 key f, set_mtx b w)
  | L60 key f => c ← chan_recv (start (lproc l)); Some (L61 key f, set_start c w)
  | L61 key f =>
      let '(o, p') := Load (p l) key in
      let w' := World (MkLoader p' (lproc l) (mtx l) (inFlight l))
                      (heap w) (calls w ++ [(f, key, o)]) (shrunk w) in
      match o with
      | Returns v b => Some (L61value key f v b, w')
      | Panics => Some (L61panic key f, w')
      end
  | L61value key f v b =>
      r ← heap w !! f;
      Some (L61ok key f b, set_heap (<[f := LoadResult (done r) v (ok r)]> (heap w)) w)
  | L61ok key f b =>
      r ← heap w !! f;
      Some (L62 key f, set_heap (<[f := LoadResult (done r) (value r) b]> (heap w)) w)
  | L62 key f => c ← chan_send (start (lproc l)); Some (L63 key f, set_start c w)
  | L63 key f =>
      r ← heap w !! f;
      if done r then Some (L63panic key f, w)
      else Some (L65 key f, set_heap (<[f := LoadResult true (value r) (ok r)]> (heap w)) w)
  | L65 key f => b ← lock (mtx l); Some (L66 key f, set_mtx b w)
  | L66 key f => Some (L67 key f, set_inFlight (delete key (inFlight l)) w)
  | L67 key f => b ← unlock (mtx l); Some (L69 key f, set_mtx b w)
  | L69 key f => r ← heap w !! f; Some (L69ok key f (value r), w)
  | L69ok key f v => r ← heap w !! f; Some (LRet key f v (ok r), w)
  | LRet _ _ _ _ | L61panic _ _ | L63panic _ _ => None
  (* Status *)
  | S81 => b ← lock (mtx l); Some (S83, set_mtx b w)
  | S83 => b ← lock (proc_mtx (lproc l)); Some (S87, set_proc_mtx b w)
  | S87 => Some (S88 (maxProc (lproc l)), w)
  | S88 m => Some (S88len m (maxProc (lproc l)), w)
  | S88len m m' =>
      Some (S89 m (int_sub m' (Z.of_nat (chan_len (start (lproc l))))), w)
  | S89 m lp => Some (S84 (MkStatus m lp (Z.of_nat (size (inFlight l)))), w)
  | S84 st => b ← unlock (proc_mtx (lproc l)); Some (S82 st, set_proc_mtx b w)
  | S82 st => b ← unlock (mtx l); Some (SRet st, set_mtx b w)
  | SRet _ => None
  (* the goroutine of NewLoader: for { <-l.quit; <-l.start } *)
  | B31 =>
      match quit (lproc l) with
      | O => None
      | S n => Some (B32, set_quit n w)
      end
  | B32 =>
      c ← chan_recv (start (lproc l));
      Some (B31, World (ldr (set_start c w)) (heap w) (calls w) (S (shrunk w)))
  end.

(** What the environment does: start a goroutine that calls a method of
    the loader, schedule goroutine [i] for one step, or send a shrink
    signal on [l.quit]. *)
Inductive call := CallLoad (key : string) | CallStatus.

Inductive event :=
| Go (c : call)
| Run (i : nat)
| Shrink.

Definition entry (c : call) : pc :=
  match c with
  | CallLoad key => L48 key
  | CallStatus => S81
  end.

Definition step (e : event) (s : state P) : option (state P) :=
  let '(w, ts) := s in
  match e with
  | Go c => Some (w, ts ++ [entry c])
  | Run i =>
      t ← ts !! i;
      '(t', w') ← step_thread t w;
      Some (w', <[i := t']> ts)
  | Shrink => Some (set_quit (S (quit (lproc (ldr w)))) w, ts)
  end.

Fixpoint exec (tr : list event) (s : state P) : option (state P) :=
  match tr with
  | [] => Some s
  | e :: tr' => s' ← step e s; exec tr' s'
  end.

(** [NewLoader(p, maxProc)]: the loader, and the goroutine it starts,
    which is goroutine 0. *)
Definition NewLoader (p0 : P) (maxProc : Z) : state P :=
  (World (MkLoader p0 (newProc maxProc) false ∅) [] [] 0, [B31]).

(** What [Status] returns when it is evaluated on one state. *)
Definition snapshot (w : world P) : LoaderStatus :=
  let q := lproc (ldr w) in
  MkStatus (maxProc q)
           (int_sub (maxProc q) (Z.of_nat (chan_len (start q))))
           (Z.of_nat (size (inFlight (ldr w)))).

End Semantics.

(** ** Two loaders to run the model on *)

(** The [n]-th call returns [n] zero bytes; [ok] is whether the key is
    non-empty. *)
Definition counting_Load (n : nat) (key : string) : outcome * nat :=
  (Returns (replicate n "000"%byte) (negb (String.eqb key "")), S n).

(** Panics on the key ["boom"], otherwise like [counting_Load]. *)
Definition faulty_Load (n : nat) (key : string) : outcome * nat :=
  if String.eqb key "boom" then (Panics, S n) else counting_Load n key.

Inductive counting := Counting (n : nat).
Inductive faulty := Faulty (n : nat).

#[export] Instance counting_loader : ProxyLoader counting :=
  λ '(Counting n) key, let '(o, n') := counting_Load n key in (o, Counting n').
#[export] Instance faulty_loader : ProxyLoader faulty :=
  λ '(Faulty n) key, let '(o, n') := faulty_Load n key in (o, Faulty n').

Definition run_n (i n : nat) : list event := replicate n (Run i).

(** ** What a goroutine holds at each line *)

(** Between [l.mtx.Lock()] and the matching [Unlock]. *)
Definition holds_mtx (t : pc) : bool :=
  match t with
  | L49 _ | L50 _ _ | L55 _ | L56 _ _ | L58 _ _ | L66 _ _ | L67 _ _
  | S83 | S87 | S88 _ | S88len _ _ | S89 _ _ | S84 _ | S82 _ => true
  | _ => false
  end.

(** Between [l.proc.mtx.Lock()] and the matching [Unlock]. *)
Definition holds_proc_mtx (t : pc) : bool :=
  match t with
  | S87 | S88 _ | S88len _ _ | S89 _ _ | S84 _ => true
  | _ => false
  end.

(** Between [<-l.start] and [l.start <- struct{}{}]: a token is on loan
    to the goroutine.  A call that left [Load] by a panic keeps its
    token. *)
Definition holds_token (t : pc) : bool :=
  match t with
  | L61 _ _ | L61value _ _ _ _ | L61ok _ _ _ | L62 _ _ | L61panic _ _ => true
  | _ => false
  end.

(** Between [l.inFlight[key] = f] and [delete(l.inFlight, key)]: the
    owner's record is in the table. *)
Definition in_table (t : pc) : option (string * loc) :=
  match t with
  | L58 k f | L60 k f | L61 k f | L61value k f _ _ | L61ok k f _ | L62 k f
  | L63 k f | L65 k f | L66 k f | L61panic k f | L63panic k f => Some (k, f)
  | _ => None
  end.

Definition in_window (t : pc) : bool := bool_decide (is_Some (in_table t)).

(** The record a goroutine has allocated and not yet deleted from the
    table. *)
Definition owned (t : pc) : option loc :=
  match t with
  | L56 _ f => Some f
  | _ => snd <$> in_table t
  end.

(** A goroutine is inside [Load(key)]: called and not yet returned. *)
Definition in_Load (t : pc) : option string :=
  match t with
  | L48 k | L49 k | L50 k _ | L51 k _ | L52 k _ | L52ok k _ _ | L55 k
  | L56 k _ | L58 k _ | L60 k _ | L61 k _ | L61value k _ _ _ | L61ok k _ _
  | L62 k _ | L63 k _ | L65 k _ | L66 k _ | L67 k _ | L69 k _ | L69ok k _ _ =>
      Some k
  | _ => None
  end.

(** The lines of [Load] after the lookup found a record: the waiter's
    path. *)
Definition waiting (t : pc) : option loc :=
  match t with
  | L50 _ f | L51 _ f | L52 _ f | L52ok _ f _ => Some f
  | _ => None
  end.

Fixpoint count (g : pc → bool) (ts : list pc) : nat :=
  match ts with
  | [] => 0
  | t :: ts' => Nat.b2n (g t) + count g ts'
  end.

(** The calls of [l.p.Load] made for record [f]. *)
Definition calls_for (f : loc) (c : list (loc * string * outcome))
  : list (string * outcome) :=
  omap (λ e, if decide (e.1.1 = f) then Some (e.1.2, e.2) else None) c.

(** The calls of [l.p.Load] made with [key]. *)
Definition calls_key (key : string) (c : list (loc * string * outcome))
  : list (loc * string * outcome) :=
  filter (λ e, e.1.2 = key) c.

(** Tokens in the pool, and tokens on loan to calls of [Load]. *)
Definition available {P} (s : state P) : nat :=
  chan_len (start (lproc (ldr s.1))).
Definition on_loan {P} (s : state P) : nat := count holds_token s.2.

(** ** The invariant *)

(** What goroutine [t] knows about the heap [h], the table [m] and the
    history [c] at its line; [n] is the [maxProc] the loader was made
    with. *)
Definition thread_ok (n : Z) (h : list loadResult) (m : gmap string loc)
    (c : list (loc * string * outcome)) (t : pc) : Prop :=
  match t with
  | L50 k f | L51 k f =>
      is_Some (h !! f) ∧ (m !! k = Some f ∨ ∃ o, calls_for f c = [(k, o)])
  | L52 k f | L67 k f | L69 k f =>
      ∃ r, h !! f = Some r ∧ done r = true ∧
           calls_for f c = [(k, Returns (value r) (ok r))]
  | L52ok k f v | L69ok k f v =>
      ∃ r, h !! f = Some r ∧ done r = true ∧ value r = v ∧
           calls_for f c = [(k, Returns (value r) (ok r))]
  | LRet k f v b =>
      h !! f = Some (LoadResult true v b) ∧ calls_for f c = [(k, Returns v b)]
  | L55 k => m !! k = None
  | L56 k f =>
      m !! k = None ∧ h !! f = Some new_loadResult ∧ calls_for f c = []
  | L58 k f | L60 k f | L61 k f =>
      m !! k = Some f ∧ h !! f = Some new_loadResult ∧ calls_for f c = []
  | L61value k f v b =>
      m !! k = Some f ∧ h !! f = Some new_loadResult ∧
      calls_for f c = [(k, Returns v b)]
  | L61ok k f b =>
      m !! k = Some f ∧
      ∃ v, h !! f = Some (LoadResult false v false) ∧
           calls_for f c = [(k, Returns v b)]
  | L62 k f | L63 k f =>
      m !! k = Some f ∧
      ∃ v b, h !! f = Some (LoadResult false v b) ∧
             calls_for f c = [(k, Returns v b)]
  | L65 k f | L66 k f =>
      m !! k = Some f ∧
      ∃ r, h !! f = Some r ∧ done r = true ∧
           calls_for f c = [(k, Returns (value r) (ok r))]
  | L61panic k f =>
      m !! k = Some f ∧ h !! f = Some new_loadResult ∧
      calls_for f c = [(k, Panics)]
  | L63panic _ _ => False
  | S88 m1 => m1 = n
  | S88len m1 m2 => m1 = n ∧ m2 = n
  | S89 m1 lp => m1 = n ∧ (0 ≤ lp ≤ n)%Z
  | S84 st | S82 st | SRet st =>
      MaxLoaderProc st = n ∧ (0 ≤ LoaderProc st ≤ n)%Z ∧ (0 ≤ InflightLoad st)%Z
  | _ => True
  end.

Record Inv {P} (n : Z) (s : state P) : Prop := MkInv {
  inv_range : (0 ≤ n ≤ int_max)%Z;
  inv_max : maxProc (lproc (ldr s.1)) = n;
  inv_mtx : count holds_mtx s.2 = Nat.b2n (mtx (ldr s.1));
  inv_pmtx : count holds_proc_mtx s.2 = Nat.b2n (proc_mtx (lproc (ldr s.1)));
  inv_tok : available s + on_loan s + shrunk s.1 = Z.to_nat n;
  inv_cap : chan_cap (start (lproc (ldr s.1))) = Z.to_nat n;
  inv_size : size (inFlight (ldr s.1)) = count in_window s.2;
  inv_thr : ∀ i t, s.2 !! i = Some t →
      thread_ok n (heap s.1) (inFlight (ldr s.1)) (calls s.1) t;
  inv_own : ∀ i j ti tj f, s.2 !! i = Some ti → s.2 !! j = Some tj →
      owned ti = Some f → owned tj = Some f → i = j;
  inv_tab : ∀ k f, inFlight (ldr s.1) !! k = Some f →
      ∃ i t, s.2 !! i = Some t ∧ in_table t = Some (k, f);
  inv_rec : ∀ f r, heap s.1 !! f = Some r → done r = true →
      ∃ k, calls_for f (calls s.1) = [(k, Returns (value r) (ok r))];
  inv_log : ∀ f, length (heap s.1) ≤ f → calls_for f (calls s.1) = [];
  inv_calls : ∀ f, length (calls_for f (calls s.1)) ≤ 1
}.

(** ** Definitions for the properties *)

(** The position of a line on its path through [Load]. *)
Definition line (t : pc) : nat :=
  match t with
  | L48 _ => 0 | L49 _ => 1
  | L50 _ _ => 2 | L51 _ _ => 3 | L52 _ _ => 4 | L52ok _ _ _ => 5
  | L55 _ => 2 | L56 _ _ => 3 | L58 _ _ => 4 | L60 _ _ => 5 | L61 _ _ => 6
  | L61value _ _ _ _ => 7 | L61ok _ _ _ => 8 | L62 _ _ => 9 | L63 _ _ => 10
  | L65 _ _ => 11 | L66 _ _ => 12 | L67 _ _ => 13 | L69 _ _ => 14
  | L69ok _ _ _ => 15
  | _ => 16
  end.


(** A caller in [Load] that cannot take a step (or is inside the call
    of [l.p.Load], which the loader waits for). *)
Definition blocked {P} `{ProxyLoader P} (w : world P) (t : pc) : bool :=
  match t with
  | L61 _ _ => true
  | _ => match step_thread t w with Some _ => false | None => true end
  end.

(** The keys with a blocked caller, the keys with a caller inside
    [Load], and the keys whose owner is inside the window. *)
Definition keys_blocked {P} `{ProxyLoader P} (s : state P) : gset string :=
  list_to_set (omap (λ t, if blocked s.1 t then in_Load t else None) s.2).
Definition keys_in_Load {P} (s : state P) : gset string :=
  list_to_set (omap in_Load s.2).
Definition window_keys (ts : list pc) : gset string :=
  list_to_set (omap (λ t, fst <$> in_table t) ts).

(** The states an execution goes through. *)
Fixpoint trajectory {P} `{ProxyLoader P} (tr : list event) (s : state P)
  : list (state P) :=
  s :: match tr with
       | [] => []
       | e :: tr' =>
           match step e s with
           | Some s' => trajectory tr' s'
           | None => []
           end
       end.

(** ** Executions to run the model on *)

(** One call runs up to its signal, a second one attaches to its record,
    one shrink is processed, and [Status] is called. *)
Definition demo_trace : list event :=
  [Go (CallLoad "a")] ++ run_n 1 11 ++
  [Go (CallLoad "a"); Run 2; Run 2; Run 2; Shrink; Run 0; Run 0;
   Go CallStatus] ++ run_n 3 8.

(** Two calls of [Load("k")] started together on a fresh loader; the
    first runs to its return before the second takes its first step. *)
Definition two_calls_trace : list event :=
  [Go (CallLoad "k"); Go (CallLoad "k")] ++ run_n 1 16 ++ run_n 2 16.

(** The owner stands at line 65 and a second call has just locked the
    mutex. *)
Definition late_trace : list event :=
  [Go (CallLoad "a")] ++ run_n 1 11 ++ [Go (CallLoad "a"); Run 2].


(** The owner panics at line 61 while a second call waits for it. *)
Definition boom_trace : list event :=
  [Go (CallLoad "boom"); Go (CallLoad "boom")] ++ run_n 1 7 ++ run_n 2 3.

(** The same, one step earlier: the owner is about to call. *)
Definition calling_trace : list event :=
  [Go (CallLoad "boom"); Go (CallLoad "boom")] ++ run_n 1 6 ++ run_n 2 3.

(** The owner of "a" stands at line 65, two more calls have not yet
    locked the mutex, and a call of [Status] starts. *)
Definition status_trace : list event :=
  [Go (CallLoad "a")] ++ run_n 1 11 ++
  [Go (CallLoad "b"); Go (CallLoad "c"); Go CallStatus].

(** The spec's scenario: capacity 2, keys A, A, A, B called together;
    the three lookups for A all happen before A's owner deletes its
    record. *)
Definition aaab_trace : list event :=
  [Go (CallLoad "A"); Go (CallLoad "A"); Go (CallLoad "A"); Go (CallLoad "B")]
  ++ run_n 1 5 ++ run_n 2 3 ++ run_n 3 3 ++ run_n 4 16
  ++ run_n 1 11 ++ run_n 2 3 ++ run_n 3 3.

(** The spec's scenario: capacity 1, two keys called together; the
    first owner holds the token, the second is at [<-l.start]. *)
Definition one_token_trace : list event :=
  [Go (CallLoad "A"); Go (CallLoad "B")] ++ run_n 1 6 ++ run_n 2 5.

(** ** More of the loader: definitions *)

(** A goroutine is inside [Status]: called and not yet returned. *)
Definition in_Status (t : pc) : bool :=
  match t with
  | S81 | S83 | S87 | S88 _ | S88len _ _ | S89 _ _ | S84 _ | S82 _ => true
  | _ => false
  end.

(** A goroutine is inside the call of [l.p.Load] (line 61). *)
Definition calling (t : pc) : bool :=
  match t with L61 _ _ => true | _ => false end.

(** A goroutine that has returned from its call, or the background
    goroutine. *)
Definition idle (t : pc) : bool :=
  match t with
  | LRet _ _ _ _ | SRet _ | B31 | B32 => true
  | _ => false
  end.

(** The key and the record of a call of [Load] that has a record, its
    own or the one its lookup found. *)
Definition attached (t : pc) : option (string * loc) :=
  match t with
  | L50 k f | L51 k f | L52 k f | L52ok k f _ | L56 k f | L58 k f | L60 k f
  | L61 k f | L61value k f _ _ | L61ok k f _ | L62 k f | L63 k f | L65 k f
  | L66 k f | L67 k f | L69 k f | L69ok k f _ | LRet k f _ _
  | L61panic k f | L63panic k f => Some (k, f)
  | _ => None
  end.

(** The background goroutine, and its line 32: a shrink signal received
    whose token is not yet taken. *)
Definition background (t : pc) : bool :=
  match t with B31 | B32 => true | _ => false end.
Definition at_B32 (t : pc) : bool :=
  match t with B32 => true | _ => false end.

(** The shrink signals sent during an execution. *)
Fixpoint shrinks_sent (tr : list event) : nat :=
  match tr with
  | [] => 0
  | Shrink :: tr' => S (shrinks_sent tr')
  | _ :: tr' => shrinks_sent tr'
  end.

(** One call of [Load("a")] has returned, one of [Status] too. *)
Definition quiet_trace : list event :=
  [Go (CallLoad "a")] ++ run_n 1 16 ++ [Go CallStatus] ++ run_n 2 8.

(** Two owners hold the two tokens, a third one stands at
    [<-l.start]. *)
Definition full_trace : list event :=
  [Go (CallLoad "a"); Go (CallLoad "b"); Go (CallLoad "c")] ++
  run_n 1 6 ++ run_n 2 6 ++ run_n 3 5.

(** Two shrink signals sent, the first one processed, the second one
    received. *)
Definition shrink_trace : list event :=
  [Shrink; Shrink; Run 0; Run 0; Run 0].


(** ** Tactics *)

(** Name the fields of a world. *)
Ltac world w :=
  let p0 := fresh "p0" in let mx := fresh "mx" in let st := fresh "cs" in
  let qt := fresh "qt" in let pm := fresh "pm" in let mt := fresh "mt" in
  let m := fresh "m" in let h := fresh "h" in let c := fresh "c" in
  let sh := fresh "sh" in
  destruct w as [[p0 [mx st qt pm] mt m] h c sh].

Ltac world_chan w :=
  let p0 := fresh "p0" in let mx := fresh "mx" in let st := fresh "cs" in
  let qt := fresh "qt" in let pm := fresh "pm" in let mt := fresh "mt" in
  let m := fresh "m" in let h := fresh "h" in let c := fresh "c" in
  let sh := fresh "sh" in
  destruct w as [[p0 [mx [st ?] qt pm] mt m] h c sh].

Ltac unpack :=
  repeat match goal with
  | H : _ ∧ _ |- _ => destruct H
  | H : ∃ _, _ |- _ => destruct H
  end; simplify_eq/=.

(** Invert [step_thread t w = Some (t', w')] once [t] is a constructor. *)
Ltac stepped Hstep :=
  simpl in Hstep;
  unfold lock, unlock, chan_recv, chan_send in Hstep;
  repeat (first [progress simplify_option_eq | case_match]; simplify_eq/=).

(** ** Counting goroutines *)

Lemma count_app g ts t : count g (ts ++ [t]) = count g ts + Nat.b2n (g t).
Proof. induction ts as [|a ts IH]; simpl; [lia | rewrite IH; lia]. Qed.

Lemma count_insert g ts i t t' :
  ts !! i = Some t →
  count g (<[i := t']> ts) + Nat.b2n (g t) = count g ts + Nat.b2n (g t').
Proof.
  revert i. induction ts as [|a ts IH]; intros [|i] Hi; simplify_eq/=.
  - lia.
  - specialize (IH _ Hi). lia.
Qed.

Lemma count_lookup g ts i t :
  ts !! i = Some t → g t = true → 1 ≤ count g ts.
Proof.
  revert i. induction ts as [|a ts IH]; intros [|i] Hi Hg; simplify_eq/=.
  - rewrite Hg. simpl. lia.
  - specialize (IH _ Hi Hg). lia.
Qed.

Lemma count_unique g ts i j ti tj :
  count g ts ≤ 1 → ts !! i = Some ti → ts !! j = Some tj →
  g ti = true → g tj = true → i = j.
Proof.
  revert i j. induction ts as [|a ts IH]; intros [|i] [|j] Hc Hi Hj Gi Gj;
    simplify_eq/=; try done.
  - pose proof (count_lookup _ _ _ _ Hj Gj). rewrite Gi in Hc. simpl in Hc. lia.
  - pose proof (count_lookup _ _ _ _ Hi Gi). rewrite Gj in Hc. simpl in Hc. lia.
  - f_equal. eapply IH; eauto. lia.
Qed.

Lemma calls_for_snoc f c f' k o :
  calls_for f (c ++ [(f', k, o)]) =
  calls_for f c ++ (if decide (f' = f) then [(k, o)] else []).
Proof. unfold calls_for. rewrite omap_app. simpl. by case_decide. Qed.

Lemma int_sub_small (a b : Z) :
  (0 ≤ b ≤ a)%Z → (a ≤ int_max)%Z → int_sub a b = (a - b)%Z.
Proof.
  unfold int_sub, int_wrap, int_max. intros ? ?.
  rewrite Z.mod_small; lia.
Qed.

(** ** Every step keeps the invariant *)

Section Preservation.
Context {P : Type} `{ProxyLoader P}.
Variable n : Z.

Lemma run_counts (w : world P) ts i t t' w' :
  Inv n (w, ts) → ts !! i = Some t → step_thread t w = Some (t', w') →
  maxProc (lproc (ldr w')) = n ∧
  count holds_mtx (<[i := t']> ts) = Nat.b2n (mtx (ldr w')) ∧
  count holds_proc_mtx (<[i := t']> ts) = Nat.b2n (proc_mtx (lproc (ldr w'))) ∧
  available (w', <[i := t']> ts) + on_loan (w', <[i := t']> ts) + shrunk w'
    = Z.to_nat n ∧
  chan_cap (start (lproc (ldr w'))) = Z.to_nat n.
Proof.
  intros [_ Hmax Hm Hp Htok Hcap _ _ _ _ _ _ _] Hi Hstep.
  unfold available, on_loan in *. simpl in *.
  pose proof (count_insert holds_mtx ts i t t' Hi) as E1.
  pose proof (count_insert holds_proc_mtx ts i t t' Hi) as E2.
  pose proof (count_insert holds_token ts i t t' Hi) as E3.
  world w. destruct t; stepped Hstep; simpl in *; repeat split; lia.
Qed.

(** *** What another goroutine's step leaves true *)

Lemma ok_alloc h m c t r :
  thread_ok n h m c t → thread_ok n (h ++ [r]) m c t.
Proof.
  assert (∀ f x, h !! f = Some x → (h ++ [r]) !! f = Some x) as Happ
    by (intros; by apply lookup_app_l_Some).
  destruct t; simpl; try done; unfold is_Some; naive_solver.
Qed.

Lemma ok_insert h m c t k f :
  thread_ok n h m c t → holds_mtx t = false → m !! k = None →
  thread_ok n h (<[k := f]> m) c t.
Proof.
  intros Hok Hm Hk.
  assert (∀ k' f', m !! k' = Some f' → <[k := f]> m !! k' = Some f') as Hne.
  { intros k' f' E. rewrite lookup_insert_ne; [done | congruence]. }
  destruct t; simpl in *; try done; naive_solver.
Qed.

Lemma ok_delete h m c t k f o :
  thread_ok n h m c t → holds_mtx t = false →
  (∀ f', in_table t ≠ Some (k, f')) →
  m !! k = Some f → calls_for f c = [(k, o)] →
  thread_ok n h (delete k m) c t.
Proof.
  intros Hok Hm Hk Hf Hc.
  assert (∀ k' f', k' ≠ k → m !! k' = Some f' → delete k m !! k' = Some f')
    as Hne by (intros; by rewrite lookup_delete_ne).
  destruct t; simpl in *; try done;
    try (split; [apply Hne; [intros ->; by eapply Hk | tauto] | tauto]).
  destruct Hok as [? [Hl|Hr]]; split; auto.
  destruct (decide (key = k)) as [->|]; [|auto].
  right. simplify_eq. eauto.
Qed.

Lemma ok_call h m c t f k o :
  thread_ok n h m c t → owned t ≠ Some f → calls_for f c = [] →
  thread_ok n h m (c ++ [(f, k, o)]) t.
Proof.
  intros Hok Ho Hc.
  assert (∀ f', f' ≠ f →
    calls_for f' (c ++ [(f, k, o)]) = calls_for f' c) as Hne.
  { intros f' Hf. rewrite calls_for_snoc, decide_False, app_nil_r; done. }
  assert (∀ f' x, calls_for f' c = [x] → f' ≠ f) as Hx
    by (intros f' x E ->; congruence).
  destruct t; simpl in *; try done; unpack;
    try (rewrite Hne by (congruence || eauto); by eauto 8).
  all: split; [done|].
  all: match goal with H : _ ∨ _ |- _ => destruct H as [|[o' Ho']] end;
    [auto|].
  all: right; exists o'; rewrite Hne; eauto.
Qed.

Lemma ok_write h m c t f r r' :
  thread_ok n h m c t → owned t ≠ Some f →
  h !! f = Some r → done r = false →
  thread_ok n (<[f := r']> h) m c t.
Proof.
  intros Hok Ho Hf Hd.
  assert (∀ f' x, f' ≠ f → h !! f' = Some x → <[f := r']> h !! f' = Some x)
    as Hne by (intros; by rewrite list_lookup_insert_ne).
  assert (∀ f' x, h !! f' = Some x → done x = true → f' ≠ f) as Hdone
    by (intros f' x E1 E2 ->; congruence).
  assert (∀ f', is_Some (h !! f') → is_Some (<[f := r']> h !! f')) as Hsome.
  { intros f' E. apply lookup_lt_is_Some. rewrite length_insert.
    by apply lookup_lt_is_Some. }
  destruct t; simpl in *; try done; naive_solver.
Qed.

(** The table entry of a goroutine inside the window is its record. *)
Lemma in_table_lookup h m c t k f :
  thread_ok n h m c t → in_table t = Some (k, f) → m !! k = Some f.
Proof. destruct t; simpl; intros; simplify_eq; tauto. Qed.

Lemma owned_valid h m c t f :
  thread_ok n h m c t → owned t = Some f → is_Some (h !! f).
Proof.
  destruct t; simpl; intros Hok ?; simplify_eq; try done;
    unfold is_Some; naive_solver.
Qed.

Lemma other_no_mtx (w : world P) ts i j t tj :
  Inv n (w, ts) → ts !! i = Some t → ts !! j = Some tj → i ≠ j →
  holds_mtx t = true → holds_mtx tj = false.
Proof.
  intros HI Hi Hj Hne Ht. destruct (holds_mtx tj) eqn:E; [|done].
  destruct Hne. eapply (count_unique holds_mtx ts); eauto.
  pose proof (inv_mtx _ _ HI) as Hc. simpl in Hc. rewrite Hc.
  destruct (mtx (ldr w)); simpl; lia.
Qed.

Lemma table_valid (w : world P) ts k f :
  Inv n (w, ts) → inFlight (ldr w) !! k = Some f → is_Some (heap w !! f).
Proof.
  intros HI Hk. destruct (inv_tab _ _ HI k f Hk) as (i & t & Hi & Ht).
  eapply owned_valid; [eapply (inv_thr _ _ HI); eauto|].
  unfold owned. rewrite Ht. by destruct t.
Qed.

Lemma other_not_owner (w : world P) ts i j t tj f :
  Inv n (w, ts) → ts !! i = Some t → ts !! j = Some tj → i ≠ j →
  owned t = Some f → owned tj ≠ Some f.
Proof.
  intros HI Hi Hj Hne Ht Htj. destruct Hne.
  eapply (inv_own _ _ HI); eauto.
Qed.

Lemma other_key (w : world P) ts i j t tj k f f' :
  Inv n (w, ts) → ts !! i = Some t → ts !! j = Some tj → i ≠ j →
  in_table t = Some (k, f) → in_table tj ≠ Some (k, f').
Proof.
  intros HI Hi Hj Hne Ht Htj.
  pose proof (in_table_lookup _ _ _ _ _ _ (inv_thr _ _ HI i t Hi) Ht) as E1.
  pose proof (in_table_lookup _ _ _ _ _ _ (inv_thr _ _ HI j tj Hj) Htj) as E2.
  simpl in *. rewrite E1 in E2. injection E2 as <-.
  destruct Hne. eapply (inv_own _ _ HI i j t tj f); eauto.
  - by destruct t; simplify_eq/=.
  - by destruct tj; simplify_eq/=.
Qed.

(** A record in the table whose signal has fired: its owner is at line
    65 or 66, and the call made for it was made with the table's key. *)
Lemma table_done_calls (w : world P) ts k f r :
  Inv n (w, ts) → inFlight (ldr w) !! k = Some f →
  heap w !! f = Some r → done r = true →
  calls_for f (calls w) = [(k, Returns (value r) (ok r))].
Proof.
  intros HI Hk Hf Hd. destruct (inv_tab _ _ HI k f Hk) as (i & t & Hi & Ht).
  pose proof (inv_thr _ _ HI i t Hi) as Hok. simpl in *.
  destruct t; simplify_eq/=; unpack; simplify_eq/=; done.
Qed.

Lemma attached_done_calls (w : world P) ts k f r :
  Inv n (w, ts) →
  inFlight (ldr w) !! k = Some f ∨ (∃ o, calls_for f (calls w) = [(k, o)]) →
  heap w !! f = Some r → done r = true →
  calls_for f (calls w) = [(k, Returns (value r) (ok r))].
Proof.
  intros HI [Hk|[o Ho]] Hf Hd; [by eapply table_done_calls|].
  destruct (inv_rec _ _ HI f r Hf Hd) as [k' Hk']. simpl in *. congruence.
Qed.

(** *** The stepping goroutine *)

Lemma run_self (w : world P) ts i t t' w' :
  Inv n (w, ts) → ts !! i = Some t → step_thread t w = Some (t', w') →
  thread_ok n (heap w') (inFlight (ldr w')) (calls w') t'.
Proof.
  intros HI Hi Hstep.
  pose proof (inv_thr _ _ HI i t Hi) as Hok.
  pose proof (inv_max _ _ HI) as Hmax.
  pose proof (inv_tok _ _ HI) as Htok.
  pose proof (inv_range _ _ HI) as Hr.
  pose proof (inv_log _ _ HI) as Hlog.
  pose proof (λ k f, table_valid w ts k f HI) as Hval.
  pose proof (λ k f r, attached_done_calls w ts k f r HI) as Hatt.
  unfold available in *. simpl in *.
  world w. destruct t; stepped Hstep; simpl in *; unpack; try done.
  all: repeat match goal with r : loadResult |- _ => destruct r end;
    simplify_eq/=.
  all: rewrite ?calls_for_snoc, ?decide_True, ?lookup_insert_eq by done.
  all: rewrite ?list_lookup_insert_eq by (eapply lookup_lt_Some; eauto).
  all: try (by eauto 8).
  all: split_and?; try done; try lia.
  all: try (by apply list_lookup_middle); try (by apply Hlog).
  all: try (match goal with E : calls_for _ _ = [] |- _ => by rewrite E end).
  all: rewrite int_sub_small; lia.
Qed.

(** *** The other goroutines *)

Lemma run_other (w : world P) ts i j t t' w' tj :
  Inv n (w, ts) → ts !! i = Some t → step_thread t w = Some (t', w') →
  ts !! j = Some tj → i ≠ j →
  thread_ok n (heap w') (inFlight (ldr w')) (calls w') tj.
Proof.
  intros HI Hi Hstep Hj Hne.
  pose proof (inv_thr _ _ HI i t Hi) as Hok.
  pose proof (inv_thr _ _ HI j tj Hj) as Hokj.
  pose proof (other_no_mtx w ts i j t tj HI Hi Hj Hne) as Hnm.
  pose proof (λ f, other_not_owner w ts i j t tj f HI Hi Hj Hne) as Hno.
  pose proof (λ k f f', other_key w ts i j t tj k f f' HI Hi Hj Hne) as Hkey.
  clear HI. simpl in *.
  world w. destruct t; stepped Hstep; simpl in *; unpack; try exact Hokj.
  - by apply ok_alloc.
  - apply ok_insert; auto.
  - eapply ok_call; eauto.
  - eapply ok_call; eauto.
  - eapply ok_write; eauto.
  - eapply ok_write; eauto.
  - eapply ok_write; eauto.
  - eapply ok_delete; eauto.
Qed.

Lemma run_thr (w : world P) ts i t t' w' :
  Inv n (w, ts) → ts !! i = Some t → step_thread t w = Some (t', w') →
  ∀ j tj, <[i := t']> ts !! j = Some tj →
    thread_ok n (heap w') (inFlight (ldr w')) (calls w') tj.
Proof.
  intros HI Hi Hstep j tj Hj. destruct (decide (i = j)) as [<-|Hne].
  - rewrite list_lookup_insert_eq in Hj by (by eapply lookup_lt_Some).
    simplify_eq. by eapply run_self.
  - rewrite list_lookup_insert_ne in Hj by done.
    by apply (run_other w ts i j t t' w' tj).
Qed.

(** *** Ownership and the table *)

(** A step keeps the record a goroutine owns, drops it (line 66), or
    takes the fresh one (line 55). *)
Lemma step_owned (w : world P) t t' w' :
  step_thread t w = Some (t', w') →
  owned t' = owned t ∨ owned t' = None ∨
  (owned t = None ∧ owned t' = Some (length (heap w))).
Proof.
  intros Hstep. world w. destruct t; stepped Hstep; simpl; auto.
Qed.

Lemma run_own (w : world P) ts i t t' w' :
  Inv n (w, ts) → ts !! i = Some t → step_thread t w = Some (t', w') →
  ∀ a b ta tb f, <[i := t']> ts !! a = Some ta → <[i := t']> ts !! b = Some tb →
    owned ta = Some f → owned tb = Some f → a = b.
Proof.
  intros HI Hi Hstep a b ta tb f Ha Hb Oa Ob.
  destruct (decide (a = b)) as [|Hab]; [done|exfalso].
  assert (∀ j tj, j ≠ i → ts !! j = Some tj → owned tj = Some f →
            owned t' = Some f → False) as Hfresh.
  { intros j tj Hj Hjt Oj Ot.
    destruct (step_owned _ _ _ _ Hstep) as [E|[E|[E1 E2]]].
    - rewrite E in Ot. by eapply (other_not_owner w ts i j t tj f).
    - congruence.
    - rewrite E2 in Ot. simplify_eq.
      pose proof (owned_valid _ _ _ _ _ (inv_thr _ _ HI j tj Hjt) Oj) as Hv.
      apply lookup_lt_is_Some in Hv. simpl in Hv. lia. }
  destruct (decide (a = i)) as [->|Hai]; destruct (decide (b = i)) as [->|Hbi];
    try done.
  - rewrite list_lookup_insert_eq in Ha by (by eapply lookup_lt_Some).
    rewrite list_lookup_insert_ne in Hb by done. simplify_eq. eauto.
  - rewrite list_lookup_insert_eq in Hb by (by eapply lookup_lt_Some).
    rewrite list_lookup_insert_ne in Ha by done. simplify_eq. eauto.
  - rewrite list_lookup_insert_ne in Ha, Hb by done.
    apply Hab. by eapply (inv_own _ _ HI).
Qed.

(** A step leaves the table alone and the goroutine on its side of the
    window, or it is the insertion of line 56, or the deletion of line
    66. *)
Lemma step_table (w : world P) t t' w' :
  step_thread t w = Some (t', w') →
  (inFlight (ldr w') = inFlight (ldr w) ∧ in_table t' = in_table t) ∨
  (∃ k f, t = L56 k f ∧ t' = L58 k f ∧
     inFlight (ldr w') = <[k := f]> (inFlight (ldr w))) ∨
  (∃ k f, t = L66 k f ∧ t' = L67 k f ∧
     inFlight (ldr w') = delete k (inFlight (ldr w))).
Proof.
  intros Hstep. world w. destruct t; stepped Hstep; simpl; eauto 10.
Qed.

Lemma run_tab (w : world P) ts i t t' w' :
  Inv n (w, ts) → ts !! i = Some t → step_thread t w = Some (t', w') →
  ∀ k f, inFlight (ldr w') !! k = Some f →
    ∃ a ta, <[i := t']> ts !! a = Some ta ∧ in_table ta = Some (k, f).
Proof.
  intros HI Hi Hstep k f Hk.
  pose proof (lookup_lt_Some _ _ _ Hi) as Hlt.
  assert (∀ a ta, ts !! a = Some ta → in_table ta = Some (k, f) →
            in_table t ≠ Some (k, f) →
            ∃ a ta, <[i := t']> ts !! a = Some ta ∧ in_table ta = Some (k, f))
    as Hkeep.
  { intros a ta Ha Hta Hti. exists a, ta. split; [|done].
    rewrite list_lookup_insert_ne; [done|]. intros <-. congruence. }
  destruct (step_table _ _ _ _ Hstep)
    as [[Em Et]|[(k0 & f0 & -> & -> & Em)|(k0 & f0 & -> & -> & Em)]];
    rewrite Em in Hk.
  - destruct (inv_tab _ _ HI k f Hk) as (a & ta & Ha & Hta).
    destruct (decide (in_table t = Some (k, f))) as [E|E]; [|eauto].
    exists i, t'. rewrite list_lookup_insert_eq by done. by rewrite Et.
  - destruct (decide (k0 = k)) as [->|Hne].
    + rewrite lookup_insert_eq in Hk. simplify_eq.
      exists i, (L58 k f). by rewrite list_lookup_insert_eq.
    + rewrite lookup_insert_ne in Hk by done.
      destruct (inv_tab _ _ HI k f Hk) as (a & ta & Ha & Hta). eauto.
  - destruct (decide (k0 = k)) as [->|Hne].
    + by rewrite lookup_delete_eq in Hk.
    + rewrite lookup_delete_ne in Hk by done.
      destruct (inv_tab _ _ HI k f Hk) as (a & ta & Ha & Hta).
      eapply Hkeep; eauto. simpl. congruence.
Qed.

Lemma run_size (w : world P) ts i t t' w' :
  Inv n (w, ts) → ts !! i = Some t → step_thread t w = Some (t', w') →
  size (inFlight (ldr w')) = count in_window (<[i := t']> ts).
Proof.
  intros HI Hi Hstep.
  pose proof (count_insert in_window ts i t t' Hi) as E.
  pose proof (inv_size _ _ HI) as Hs.
  pose proof (inv_thr _ _ HI i t Hi) as Hok. simpl in *.
  destruct (step_table _ _ _ _ Hstep)
    as [[Em Et]|[(k0 & f0 & -> & -> & Em)|(k0 & f0 & -> & -> & Em)]];
    rewrite Em.
  - assert (in_window t' = in_window t) as E'
      by (unfold in_window; by rewrite Et).
    rewrite E' in E. lia.
  - simpl in Hok. rewrite map_size_insert_None by tauto. simpl in E. lia.
  - simpl in Hok. destruct Hok as [Hk _].
    assert (is_Some (inFlight (ldr w) !! k0)) as Hd by eauto.
    apply map_size_delete_Some in Hd.
    pose proof (count_lookup in_window ts i _ Hi eq_refl). simpl in E. lia.
Qed.

(** *** Records and the history of calls *)

Lemma run_rec (w : world P) ts i t t' w' :
  Inv n (w, ts) → ts !! i = Some t → step_thread t w = Some (t', w') →
  ∀ f r, heap w' !! f = Some r → done r = true →
    ∃ k, calls_for f (calls w') = [(k, Returns (value r) (ok r))].
Proof.
  intros HI Hi Hstep f r Hf Hd.
  pose proof (inv_thr _ _ HI i t Hi) as Hok.
  pose proof (inv_rec _ _ HI) as Hrec. clear HI. simpl in *.
  world w. destruct t; stepped Hstep; simpl in *; unpack; eauto.
  - apply lookup_app_Some in Hf as [Hf|[_ Hf]]; [eauto|].
    destruct (f - length h) as [|[|?]]; by simplify_eq/=.
  - destruct (decide (f = f0)) as [->|Hne]; [by simplify_eq|].
    rewrite calls_for_snoc, decide_False, app_nil_r by done. eauto.
  - destruct (decide (f = f0)) as [->|Hne]; [by simplify_eq|].
    rewrite calls_for_snoc, decide_False, app_nil_r by done. eauto.
  - destruct (decide (f = f0)) as [->|Hne].
    + rewrite list_lookup_insert_eq in Hf by (by eapply lookup_lt_Some).
      by simplify_eq.
    + rewrite list_lookup_insert_ne in Hf by done. eauto.
  - destruct (decide (f = f0)) as [->|Hne].
    + rewrite list_lookup_insert_eq in Hf by (by eapply lookup_lt_Some).
      by simplify_eq.
    + rewrite list_lookup_insert_ne in Hf by done. eauto.
  - destruct (decide (f = f0)) as [->|Hne].
    + rewrite list_lookup_insert_eq in Hf by (by eapply lookup_lt_Some).
      simplify_eq/=. eauto.
    + rewrite list_lookup_insert_ne in Hf by done. eauto.
Qed.

Lemma run_log (w : world P) ts i t t' w' :
  Inv n (w, ts) → ts !! i = Some t → step_thread t w = Some (t', w') →
  (∀ f, length (heap w') ≤ f → calls_for f (calls w') = []) ∧
  (∀ f, length (calls_for f (calls w')) ≤ 1).
Proof.
  intros HI Hi Hstep.
  pose proof (inv_thr _ _ HI i t Hi) as Hok.
  pose proof (inv_log _ _ HI) as Hlog.
  pose proof (inv_calls _ _ HI) as Hcalls. clear HI. simpl in *.
  world w. destruct t; stepped Hstep; simpl in *; unpack; try done;
    rewrite ?length_insert; try done.
  - split; [|done]. intros f Hf. apply Hlog. rewrite length_app in Hf. lia.
  - assert (f < length h) by (by eapply lookup_lt_Some).
    split; intros f0; rewrite calls_for_snoc; case_decide; simplify_eq;
      rewrite ?app_nil_r; auto; try lia.
    match goal with E : calls_for _ _ = [] |- _ => rewrite E end. simpl. lia.
  - assert (f < length h) by (by eapply lookup_lt_Some).
    split; intros f0; rewrite calls_for_snoc; case_decide; simplify_eq;
      rewrite ?app_nil_r; auto; try lia.
    match goal with E : calls_for _ _ = [] |- _ => rewrite E end. simpl. lia.
Qed.

(** *** All events *)

Lemma Inv_run (w : world P) ts i t t' w' :
  Inv n (w, ts) → ts !! i = Some t → step_thread t w = Some (t', w') →
  Inv n (w', <[i := t']> ts).
Proof.
  intros HI Hi Hstep.
  destruct (run_counts w ts i t t' w' HI Hi Hstep) as (? & ? & ? & ? & ?).
  destruct (run_log w ts i t t' w' HI Hi Hstep) as [? ?].
  constructor; simpl; try done.
  - apply (inv_range _ _ HI).
  - by eapply run_size.
  - by eapply run_thr.
  - by eapply run_own.
  - by eapply run_tab.
  - by eapply run_rec.
Qed.

Lemma Inv_go (w : world P) ts c :
  Inv n (w, ts) → Inv n (w, ts ++ [entry c]).
Proof.
  intros [? ? ? ? ? ? ? Hthr Hown Htab ? ? ?].
  unfold available, on_loan in *. simpl in *.
  assert (∀ g, g (entry c) = false → count g (ts ++ [entry c]) = count g ts)
    as Hc by (intros g Hg; rewrite count_app, Hg; simpl; lia).
  assert (∀ a ta, (ts ++ [entry c]) !! a = Some ta →
            ts !! a = Some ta ∨ ta = entry c) as Hl.
  { intros a ta Ha. apply lookup_app_Some in Ha as [Ha|[_ Ha]]; [auto|].
    right. destruct (a - length ts) as [|[|?]]; by simplify_eq/=. }
  constructor; unfold available, on_loan; simpl;
    rewrite ?Hc by (by destruct c); try done.
  - intros a ta Ha. destruct (Hl _ _ Ha) as [?| ->]; [eauto|by destruct c].
  - intros a b ta tb f Ha Hb Oa Ob.
    destruct (Hl _ _ Ha) as [?| ->]; [|by destruct c].
    destruct (Hl _ _ Hb) as [?| ->]; [eauto|by destruct c].
  - intros k f Hk. destruct (Htab k f Hk) as (a & ta & Ha & Hta).
    exists a, ta. split; [by apply lookup_app_l_Some|done].
Qed.

Lemma Inv_shrink (w : world P) ts :
  Inv n (w, ts) → Inv n (set_quit (S (quit (lproc (ldr w)))) w, ts).
Proof. intros []. by constructor. Qed.

Lemma Inv_step e (s s' : state P) :
  Inv n s → step e s = Some s' → Inv n s'.
Proof.
  destruct s as [w ts]. intros HI Hstep. destruct e as [c|i|]; simpl in Hstep.
  - simplify_eq. by apply Inv_go.
  - destruct (ts !! i) as [t|] eqn:Hi; simplify_eq/=.
    destruct (step_thread t w) as [[t' w']|] eqn:Ht; simplify_eq/=.
    by eapply Inv_run.
  - simplify_eq. by apply Inv_shrink.
Qed.

Lemma Inv_exec tr (s s' : state P) :
  Inv n s → exec tr s = Some s' → Inv n s'.
Proof.
  revert s. induction tr as [|e tr IH]; intros s HI Hex; simplify_eq/=.
  - done.
  - destruct (step e s) as [s1|] eqn:E; simplify_eq/=.
    eapply IH; [|done]. by eapply Inv_step.
Qed.

Lemma Inv_NewLoader (p0 : P) :
  (0 ≤ n ≤ int_max)%Z → Inv n (NewLoader p0 n).
Proof.
  intros Hn. constructor; simpl; try done.
  - unfold available, on_loan. simpl. lia.
  - by intros [|[|?]] ? ?; simplify_eq/=.
  - by intros [|[|?]] [|[|?]] ? ? ? ? ? ? ?; simplify_eq/=.
  - simpl. lia.
Qed.

End Preservation.


(** ** One goroutine run alone *)

Section Alone.
Context {P : Type} `{ProxyLoader P}.

Lemma exec_Run (w w' : world P) ts i t t' tr :
  ts !! i = Some t → step_thread t w = Some (t', w') →
  exec (Run i :: tr) (w, ts) = exec tr (w', <[i := t']> ts).
Proof. intros Hi Ht. simpl. by rewrite Hi; simpl; rewrite Ht. Qed.

Lemma insert_last {A} (l : list A) (x y : A) :
  <[length l := x]> (l ++ [y]) = l ++ [x].
Proof.
  replace (length l) with (length l + 0) by lia. by rewrite insert_app_r.
Qed.

(** One step of goroutine [i], which is at the head of the updates of
    [ts]. *)
Ltac run1 Hi :=
  erewrite exec_Run;
  [ | first [ exact Hi
            | apply list_lookup_insert_eq; rewrite ?length_insert;
              by eapply lookup_lt_Some ]
    | simpl; unfold chan_send, chan_recv, lock, unlock; simpl;
      rewrite ?decide_True by lia;
      rewrite ?lookup_insert_eq, ?list_lookup_insert_eq, ?list_lookup_middle
        by (rewrite ?length_insert, ?length_app; simpl; lia || done);
      simpl;
      repeat (match goal with E : _ = _ |- _ => rewrite E end; simpl);
      reflexivity ];
  rewrite ?list_insert_insert_eq.

(** Normal form of the world after the last step. *)
Ltac normal :=
  cbv [set_mtx set_inFlight set_heap set_start set_proc set_ldr set_quit
       set_proc_mtx exec];
  cbn [ldr lproc mtx inFlight start quit proc_mtx maxProc chan_len chan_cap
       p heap calls shrunk];
  rewrite ?list_insert_insert_eq, ?insert_last.

(** A call of [Load(key)] that meets no record, a free mutex and a free
    token, run to its return without any other goroutine moving. *)
Lemma Load_alone (w : world P) ts i k v b p' :
  ts !! i = Some (L48 k) →
  mtx (ldr w) = false →
  inFlight (ldr w) !! k = None →
  0 < chan_len (start (lproc (ldr w))) ≤ chan_cap (start (lproc (ldr w))) →
  Load (p (ldr w)) k = (Returns v b, p') →
  exec (run_n i 16) (w, ts) =
    Some (World (MkLoader p' (lproc (ldr w)) false (inFlight (ldr w)))
                (heap w ++ [LoadResult true v b])
                (calls w ++ [(length (heap w), k, Returns v b)])
                (shrunk w),
          <[i := LRet k (length (heap w)) v b]> ts).
Proof.
  intros Hi Hm Hk Hc HL. world_chan w. cbn [ldr lproc mtx inFlight start chan_len chan_cap p heap calls shrunk] in *. subst mt.
  destruct cs as [|a]; [lia|]. cbv [run_n replicate].
  do 16 run1 Hi. normal. by rewrite delete_insert_id.
Qed.

(** A call of [Load(key)] whose lookup (line 49) meets a record that is
    already signalled: it returns what the record holds in five steps
    of its own. *)
Lemma Load_join (w : world P) ts i k f r :
  ts !! i = Some (L49 k) →
  mtx (ldr w) = true →
  inFlight (ldr w) !! k = Some f →
  heap w !! f = Some r → done r = true →
  exec (run_n i 5) (w, ts) =
    Some (set_mtx false w, <[i := LRet k f (value r) (ok r)]> ts).
Proof.
  intros Hi Hm Hk Hf Hd. world_chan w.
  cbn [ldr lproc mtx inFlight start chan_len chan_cap p heap calls shrunk] in *.
  subst mt. cbv [run_n replicate].
  do 5 run1 Hi. by normal.
Qed.

(** The owner from the call of [l.p.Load] (line 61) to the signal
    (line 63), when the call returns. *)
Lemma Load_signal (w : world P) ts i k f v b p' :
  ts !! i = Some (L61 k f) →
  heap w !! f = Some new_loadResult →
  chan_len (start (lproc (ldr w))) < chan_cap (start (lproc (ldr w))) →
  Load (p (ldr w)) k = (Returns v b, p') →
  exec (run_n i 5) (w, ts) =
    Some (World (MkLoader p' (Proc (maxProc (lproc (ldr w)))
                     (Chan (S (chan_len (start (lproc (ldr w)))))
                           (chan_cap (start (lproc (ldr w)))))
                     (quit (lproc (ldr w))) (proc_mtx (lproc (ldr w))))
                   (mtx (ldr w)) (inFlight (ldr w)))
                (<[f := LoadResult true v b]> (heap w))
                (calls w ++ [(f, k, Returns v b)])
                (shrunk w),
          <[i := L65 k f]> ts).
Proof.
  intros Hi Hf Hc HL. world_chan w.
  cbn [ldr lproc mtx inFlight start chan_len chan_cap p heap calls shrunk] in *.
  pose proof (lookup_lt_Some _ _ _ Hf). cbv [run_n replicate].
  do 5 run1 Hi. by normal.
Qed.

(** The owner from the signal to its return, when the mutex is free. *)
Lemma Load_return (w : world P) ts i k f r :
  ts !! i = Some (L65 k f) →
  mtx (ldr w) = false →
  heap w !! f = Some r →
  exec (run_n i 5) (w, ts) =
    Some (set_inFlight (delete k (inFlight (ldr w))) w,
          <[i := LRet k f (value r) (ok r)]> ts).
Proof.
  intros Hi Hm Hf. world_chan w.
  cbn [ldr lproc mtx inFlight start chan_len chan_cap p heap calls shrunk] in *.
  subst mt. cbv [run_n replicate].
  do 5 run1 Hi. by normal.
Qed.

End Alone.

(** ** Consequences of the invariant *)

Section Facts.
Context {P : Type} `{ProxyLoader P}.

Lemma step_Run_inv (s s' : state P) i :
  step (Run i) s = Some s' →
  ∃ t t', s.2 !! i = Some t ∧ step_thread t s.1 = Some (t', s'.1) ∧
          s'.2 = <[i := t']> s.2.
Proof.
  destruct s as [w ts]. simpl. intros Hs.
  destruct (ts !! i) as [t|] eqn:Hi; simplify_eq/=.
  destruct (step_thread t w) as [[t' w']|] eqn:Ht; simplify_eq/=. eauto.
Qed.

Lemma step_Run (s : state P) i t t' w' :
  s.2 !! i = Some t → step_thread t s.1 = Some (t', w') →
  step (Run i) s = Some (w', <[i := t']> s.2).
Proof.
  destruct s as [w ts]. simpl. intros Hi Ht. rewrite Hi. simpl. by rewrite Ht.
Qed.



(** A record is not written after its signal. *)
Lemma step_frozen n e (s s' : state P) f r :
  Inv n s → step e s = Some s' →
  heap s.1 !! f = Some r → done r = true → heap s'.1 !! f = Some r.
Proof.
  intros HI Hs Hf Hd. destruct e as [c|i|].
  - destruct s. by simplify_eq/=.
  - destruct (step_Run_inv _ _ _ Hs) as (t & t' & Hi & Ht & _).
    pose proof (inv_thr _ _ HI i t Hi) as Hok.
    destruct s as [w ts], s' as [w' ts']. simpl in *. clear Hs HI.
    assert (∀ f0 r0 x, heap w !! f0 = Some r0 →
              done r0 = false → <[f0 := x]> (heap w) !! f = Some r) as Hw.
    { intros f0 r0 x E0 D0. rewrite list_lookup_insert_ne; [done|].
      intros ->. congruence. }
    world w. destruct t; stepped Ht; simpl in *; unpack; eauto.
    by apply lookup_app_l_Some.
  - destruct s. by simplify_eq/=.
Qed.

Lemma exec_frozen n tr (s s' : state P) f r :
  Inv n s → exec tr s = Some s' →
  heap s.1 !! f = Some r → done r = true → heap s'.1 !! f = Some r.
Proof.
  revert s. induction tr as [|e tr IH]; intros s HI Hs Hf Hd; simplify_eq/=.
  - done.
  - destruct (step e s) as [s1|] eqn:E; simplify_eq/=.
    eapply (IH s1); [by eapply Inv_step | done | by eapply step_frozen | done].
Qed.

End Facts.

(** ** Properties of the loader *)

(** The scenarios of the spec, run on the model. *)
Example scenario_aaab :
  ∃ s, exec aaab_trace (NewLoader (Counting 0) 2) = Some s ∧
       calls s.1 = [(1, "B", Returns [] true);
                    (0, "A", Returns ["000"%byte] true)] ∧
       s.2 = [B31; LRet "A" 0 ["000"%byte] true; LRet "A" 0 ["000"%byte] true;
              LRet "A" 0 ["000"%byte] true; LRet "B" 1 [] true].
Proof. eexists. split; [vm_compute; reflexivity|]. by vm_compute. Qed.

Example scenario_one_token :
  ∃ s, exec one_token_trace (NewLoader (Counting 0) 1) = Some s ∧
       s.2 = [B31; L61 "A" 0; L60 "B" 1] ∧
       step (Run 2) s = None ∧
       is_Some (exec (run_n 1 4 ++ [Run 2]) s).
Proof.
  eexists. split; [vm_compute; reflexivity|].
  split; [reflexivity|]. split; [reflexivity|]. vm_compute. eauto.
Qed.

(** C10. The maximum that [Status] reports is the [maxProc] given to
    [NewLoader], in every state of the loader: the field is never
    written, and the step of the background goroutine that completes a
    shrink takes a token from the pool and leaves the field alone. *)
Theorem C10_reported_max_constant {P} `{ProxyLoader P} (p0 : P) n tr s :
  (0 ≤ n ≤ int_max)%Z →
  exec tr (NewLoader p0 n) = Some s →
  maxProc (lproc (ldr s.1)) = n ∧
  MaxLoaderProc (snapshot s.1) = n ∧
  (∀ i st, s.2 !! i = Some (SRet st) → MaxLoaderProc st = n) ∧
  (∀ i s', s.2 !! i = Some B32 → step (Run i) s = Some s' →
     maxProc (lproc (ldr s'.1)) = n ∧
     MaxLoaderProc (snapshot s'.1) = n ∧
     S (available s') = available s ∧
     shrunk s'.1 = S (shrunk s.1)).
Proof.
  intros Hn Hs.
  assert (Inv n s) as HI by (eapply Inv_exec; [by apply Inv_NewLoader|done]).
  pose proof (inv_max _ _ HI) as Hmax.
  split; [done|]. split; [done|]. split.
  - intros i st Hi. pose proof (inv_thr _ _ HI i _ Hi) as Hok. simpl in Hok.
    tauto.
  - intros i s' Hi Hstep.
    pose proof (inv_max _ _ (Inv_step n _ _ _ HI Hstep)) as Hmax'.
    split; [done|]. split; [done|].
    destruct (step_Run_inv _ _ _ Hstep) as (t & t' & Hi' & Ht & _).
    rewrite Hi in Hi'. injection Hi' as <-.
    destruct s as [w ts], s' as [w' ts']. unfold available. simpl in *.
    clear - Ht. world w. stepped Ht. done.
Qed.

(** On [demo_trace]: after a processed shrink [Status] still reports 2. *)
Lemma C10_witness :
  ∃ s, exec demo_trace (NewLoader (Counting 0) 2) = Some s ∧
       maxProc (lproc (ldr s.1)) = 2%Z ∧
       s.2 !! 3 = Some (SRet (MkStatus 2 1 1)).
Proof.
  eexists. split; [vm_compute; reflexivity|].
  split; [|reflexivity].
  refine (proj1 (C10_reported_max_constant (Counting 0) 2 demo_trace _ _ _)).
  - vm_compute. split; discriminate.
  - vm_compute. reflexivity.
Defined.

(** A step leaves [shrunk] alone, or it is the background goroutine
    completing [<-l.start]. *)
Lemma step_shrunk {P} `{ProxyLoader P} e (s s' : state P) :
  step e s = Some s' →
  (shrunk s'.1 = shrunk s.1 ∧ ∀ i, e = Run i → s.2 !! i ≠ Some B32) ∨
  (∃ i, e = Run i ∧ s.2 !! i = Some B32 ∧ s'.2 !! i = Some B31 ∧
        shrunk s'.1 = S (shrunk s.1) ∧ S (available s') = available s).
Proof.
  intros Hs. destruct e as [c|i|].
  - destruct s. simplify_eq/=. by left.
  - destruct (step_Run_inv _ _ _ Hs) as (t & t' & Hi & Ht & Hts).
    pose proof (lookup_lt_Some _ _ _ Hi) as Hlt.
    destruct s as [w ts], s' as [w' ts']. unfold available. simpl in *.
    subst ts'. clear Hs.
    world w. destruct t; stepped Ht; simpl;
      try (left; split; [done|]; intros ? [= <-]; congruence).
    right. exists i. by rewrite list_lookup_insert_eq.
  - destruct s. simplify_eq/=. by left.
Qed.



(** C6. The fields of a record are written by its owner only, at line
    61 ([value], then [ok]), while the signal has not fired, and every
    line of a call runs at most once; when the signal has fired the
    record holds the outcome of the call made for it and no step changes
    it; a waiter stays at [<-f.done] until the signal, reads after it,
    and returns that outcome. *)
Theorem C6_result_written_before_signal {P} `{ProxyLoader P} (p0 : P) n tr s :
  (0 ≤ n ≤ int_max)%Z →
  exec tr (NewLoader p0 n) = Some s →
  (∀ i t t' w' f r r',
     s.2 !! i = Some t → step_thread t s.1 = Some (t', w') →
     heap s.1 !! f = Some r → heap w' !! f = Some r' → r' ≠ r →
     owned t = Some f ∧ done r = false ∧
     ((∃ k v b, t = L61value k f v b ∧ r' = LoadResult false v (ok r)) ∨
      (∃ k b, t = L61ok k f b ∧ r' = LoadResult false (value r) b) ∨
      (∃ k, t = L63 k f ∧ r' = LoadResult true (value r) (ok r)))) ∧
  (∀ i t t' w',
     s.2 !! i = Some t → step_thread t s.1 = Some (t', w') →
     is_Some (in_Load t) → line t < line t') ∧
  (∀ f r, heap s.1 !! f = Some r → done r = true →
     ∃ k, calls_for f (calls s.1) = [(k, Returns (value r) (ok r))]) ∧
  (∀ e s' f r, step e s = Some s' →
     heap s.1 !! f = Some r → done r = true → heap s'.1 !! f = Some r) ∧
  (∀ i k f r, s.2 !! i = Some (L51 k f) →
     heap s.1 !! f = Some r → done r = false → step (Run i) s = None) ∧
  (∀ i k f, s.2 !! i = Some (L52 k f) →
     ∃ r, heap s.1 !! f = Some r ∧ done r = true ∧
          calls_for f (calls s.1) = [(k, Returns (value r) (ok r))]) ∧
  (∀ i k f v, s.2 !! i = Some (L52ok k f v) →
     ∃ r, heap s.1 !! f = Some r ∧ done r = true ∧ value r = v ∧
          calls_for f (calls s.1) = [(k, Returns (value r) (ok r))]) ∧
  (∀ i k f v b, s.2 !! i = Some (LRet k f v b) →
     heap s.1 !! f = Some (LoadResult true v b) ∧
     calls_for f (calls s.1) = [(k, Returns v b)]).
Proof.
  intros Hn Hs.
  assert (Inv n s) as HI by (eapply Inv_exec; [by apply Inv_NewLoader|done]).
  split_and!.
  - intros i t t' w' f r r' Hi Ht Hf Hf' Hne.
    pose proof (inv_thr _ _ HI i t Hi) as Hok.
    destruct s as [w ts]. simpl in *. clear Hs HI Hi.
    world w. destruct t; stepped Ht; simpl in *; unpack; try congruence.
    all: try match goal with
         | E : (?h ++ _) !! ?f1 = Some _, E' : ?h !! ?f1 = Some _ |- _ =>
             erewrite lookup_app_l_Some in E by exact E'; congruence
         end.
    all: match goal with
         | E : <[?f0 := _]> _ !! ?f1 = Some _ |- _ =>
             destruct (decide (f0 = f1)) as [->|Hd];
             [rewrite list_lookup_insert_eq in E
                by (eapply lookup_lt_Some; eauto)
             |rewrite list_lookup_insert_ne in E by done; congruence]
         end.
    all: simplify_eq/=; split_and!; eauto 10.
  - intros i t t' w' Hi Ht Hin. destruct s as [w ts]. simpl in *.
    clear Hs HI Hi. destruct Hin as [k Hin].
    world w. destruct t; stepped Ht; simpl in *; lia.
  - apply (inv_rec _ _ HI).
  - intros e s' f r. by apply step_frozen with n.
  - intros i k f r Hi Hf Hd. destruct s as [w ts]. simpl in *.
    by rewrite Hi; simpl; rewrite Hf; simpl; rewrite Hd.
  - intros i k f Hi. apply (inv_thr _ _ HI i _ Hi).
  - intros i k f v Hi. apply (inv_thr _ _ HI i _ Hi).
  - intros i k f v b Hi. apply (inv_thr _ _ HI i _ Hi).
Qed.

(** On [demo_trace]: the signalled record holds the outcome of its call. *)
Lemma C6_witness :
  ∃ s, exec demo_trace (NewLoader (Counting 0) 2) = Some s ∧
       ∀ f r, heap s.1 !! f = Some r → done r = true →
         ∃ k, calls_for f (calls s.1) = [(k, Returns (value r) (ok r))].
Proof.
  eexists. split; [vm_compute; reflexivity|].
  refine (proj1 (proj2 (proj2
    (C6_result_written_before_signal (Counting 0) 2 demo_trace _ _ _)))).
  - vm_compute. split; discriminate.
  - vm_compute. reflexivity.
Defined.

(** C1, as stated, fails: both calls are started while the table is
    empty, yet [l.p.Load] is called twice for the key and the two calls
    return different pairs. *)
Lemma C1_counterexample :
  ∃ s, exec two_calls_trace (NewLoader (Counting 0) 2) = Some s ∧
       inFlight (ldr (NewLoader (Counting 0) 2).1) = ∅ ∧
       s.2 !! 1 = Some (LRet "k" 0 [] true) ∧
       s.2 !! 2 = Some (LRet "k" 1 ["000"%byte] true) ∧
       length (calls_key "k" (calls s.1)) = 2.
Proof. eexists. split; [vm_compute; reflexivity|]. by vm_compute. Qed.

(** C1, amended. For every record, [l.p.Load] is called at most once,
    and only by the call at line 61 that owns the record; a call that
    found a record calls nothing and stays attached to that record; a
    lookup that finds a key in the table attaches to the record there;
    every call that has returned returned the outcome of the one call
    made for its record, with its own key, so all calls attached to one
    record return the same pair. *)
Theorem C1_one_call_per_record {P} `{ProxyLoader P} (p0 : P) n tr s :
  (0 ≤ n ≤ int_max)%Z →
  exec tr (NewLoader p0 n) = Some s →
  (∀ f, length (calls_for f (calls s.1)) ≤ 1) ∧
  (∀ i t t' w', s.2 !! i = Some t → step_thread t s.1 = Some (t', w') →
     calls w' ≠ calls s.1 →
     ∃ k f o, t = L61 k f ∧ owned t = Some f ∧
              calls_for f (calls s.1) = [] ∧
              calls w' = calls s.1 ++ [(f, k, o)]) ∧
  (∀ i t t' w' f, s.2 !! i = Some t → waiting t = Some f →
     step_thread t s.1 = Some (t', w') →
     calls w' = calls s.1 ∧
     (waiting t' = Some f ∨ ∃ k v b, t' = LRet k f v b)) ∧
  (∀ i k f, s.2 !! i = Some (L49 k) → inFlight (ldr s.1) !! k = Some f →
     step (Run i) s = Some (s.1, <[i := L50 k f]> s.2)) ∧
  (∀ i k f v b, s.2 !! i = Some (LRet k f v b) →
     calls_for f (calls s.1) = [(k, Returns v b)]) ∧
  (∀ i j k k' f v v' b b',
     s.2 !! i = Some (LRet k f v b) → s.2 !! j = Some (LRet k' f v' b') →
     k' = k ∧ v' = v ∧ b' = b).
Proof.
  intros Hn Hs.
  assert (Inv n s) as HI by (eapply Inv_exec; [by apply Inv_NewLoader|done]).
  split_and!.
  - apply (inv_calls _ _ HI).
  - intros i t t' w' Hi Ht Hne.
    pose proof (inv_thr _ _ HI i t Hi) as Hok.
    destruct s as [w ts]. simpl in *. clear Hs HI Hi.
    world w. destruct t; stepped Ht; simpl in *; unpack; try done;
      eauto 10.
  - intros i t t' w' f Hi Hw Ht. destruct s as [w ts]. simpl in *.
    clear Hs HI Hi.
    world w. destruct t; stepped Ht; simpl in *; simplify_eq; eauto 10.
  - intros i k f Hi Hk. destruct s as [w ts]. simpl in *.
    by rewrite Hi; simpl; rewrite Hk.
  - intros i k f v b Hi. apply (inv_thr _ _ HI i _ Hi).
  - intros i j k k' f v v' b b' Hi Hj.
    pose proof (inv_thr _ _ HI i _ Hi) as [_ Ei].
    pose proof (inv_thr _ _ HI j _ Hj) as [_ Ej].
    rewrite Ei in Ej. by simplify_eq.
Qed.

(** On [two_calls_trace]: two records, one call each. *)
Lemma C1_witness :
  ∃ s, exec two_calls_trace (NewLoader (Counting 0) 2) = Some s ∧
       ∀ f, length (calls_for f (calls s.1)) ≤ 1.
Proof.
  eexists. split; [vm_compute; reflexivity|].
  refine (proj1 (C1_one_call_per_record (Counting 0) 2 two_calls_trace _ _ _)).
  - vm_compute. split; discriminate.
  - vm_compute. reflexivity.
Defined.

Lemma calls_for_app f c1 c2 :
  calls_for f (c1 ++ c2) = calls_for f c1 ++ calls_for f c2.
Proof. apply omap_app. Qed.

(** A new call of [Load(key)] on a state with the mutex free, no record
    for the key and a token in the pool, started and run alone. *)
Lemma Load_fresh {P} `{ProxyLoader P} (w : world P) ts k v b p' :
  mtx (ldr w) = false →
  inFlight (ldr w) !! k = None →
  0 < chan_len (start (lproc (ldr w))) ≤ chan_cap (start (lproc (ldr w))) →
  Load (p (ldr w)) k = (Returns v b, p') →
  exec (Go (CallLoad k) :: run_n (length ts) 16) (w, ts) =
    Some (World (MkLoader p' (lproc (ldr w)) false (inFlight (ldr w)))
                (heap w ++ [LoadResult true v b])
                (calls w ++ [(length (heap w), k, Returns v b)])
                (shrunk w),
          ts ++ [LRet k (length (heap w)) v b]).
Proof.
  intros Hm Hk Hc HL.
  change (exec (Go (CallLoad k) :: run_n (length ts) 16) (w, ts))
    with (exec (run_n (length ts) 16) (w, ts ++ [L48 k])).
  rewrite (Load_alone w (ts ++ [L48 k]) (length ts) k v b p'); try done.
  - by rewrite insert_last.
  - by apply list_lookup_middle.
Qed.

(** The pool is never full while a token is on loan, so line 62 never
    blocks. *)
Lemma token_room {P} `{ProxyLoader P} n (s : state P) i t :
  Inv n s → s.2 !! i = Some t → holds_token t = true →
  chan_len (start (lproc (ldr s.1))) < chan_cap (start (lproc (ldr s.1))).
Proof.
  intros HI Hi Ht. pose proof (inv_tok _ _ HI) as Htok.
  pose proof (inv_cap _ _ HI) as Hcap.
  pose proof (count_lookup holds_token _ _ _ Hi Ht).
  unfold available, on_loan in *. lia.
Qed.

Lemma pool_bound {P} `{ProxyLoader P} n (s : state P) :
  Inv n s →
  chan_len (start (lproc (ldr s.1))) ≤ chan_cap (start (lproc (ldr s.1))).
Proof.
  intros HI. pose proof (inv_tok _ _ HI) as Htok.
  pose proof (inv_cap _ _ HI) as Hcap. unfold available, on_loan in *. lia.
Qed.

Lemma mtx_held {P} `{ProxyLoader P} n (s : state P) i t :
  Inv n s → s.2 !! i = Some t → holds_mtx t = true → mtx (ldr s.1) = true.
Proof.
  intros HI Hi Ht. pose proof (inv_mtx _ _ HI) as Hm.
  pose proof (count_lookup holds_mtx _ _ _ Hi Ht).
  destruct (mtx (ldr s.1)); [done|simpl in *; lia].
Qed.

(** C9. A call whose lookup finds a record that is already signalled
    (its owner stands at line 65, between the signal and the deletion)
    returns in five steps of its own, without calling [l.p.Load], the
    pair the record holds, which is the outcome of the call made for
    that record. *)
Theorem C9_late_joiner {P} `{ProxyLoader P} (p0 : P) n tr s i k f r :
  (0 ≤ n ≤ int_max)%Z →
  exec tr (NewLoader p0 n) = Some s →
  s.2 !! i = Some (L49 k) →
  inFlight (ldr s.1) !! k = Some f →
  heap s.1 !! f = Some r → done r = true →
  exec (run_n i 5) s =
    Some (set_mtx false s.1, <[i := LRet k f (value r) (ok r)]> s.2) ∧
  calls (set_mtx false s.1) = calls s.1 ∧
  calls_for f (calls s.1) = [(k, Returns (value r) (ok r))] ∧
  (∃ j, s.2 !! j = Some (L65 k f)).
Proof.
  intros Hn Hs Hi Hk Hf Hd.
  assert (Inv n s) as HI by (eapply Inv_exec; [by apply Inv_NewLoader|done]).
  pose proof (mtx_held n s i _ HI Hi eq_refl) as Hm.
  destruct s as [w ts]. simpl in *. split_and!.
  - by apply Load_join.
  - done.
  - by eapply table_done_calls.
  - destruct (inv_tab _ _ HI k f Hk) as (j & t & Hj & Ht). exists j.
    pose proof (inv_thr _ _ HI j t Hj) as Hok. simpl in *.
    destruct (decide (i = j)) as [->|Hne]; [by simplify_eq|].
    pose proof (other_no_mtx n w ts i j _ t HI Hi Hj Hne eq_refl) as Hno.
    destruct t; simplify_eq/=; unpack; simplify_eq/=; done.
Qed.

(** On [late_trace]: the second call returns the first call's result. *)
Lemma C9_witness :
  ∃ s, exec late_trace (NewLoader (Counting 0) 2) = Some s ∧
       exec (run_n 2 5) s =
         Some (set_mtx false s.1, <[2 := LRet "a" 0 [] true]> s.2).
Proof.
  eexists. split; [vm_compute; reflexivity|].
  refine (proj1 (C9_late_joiner (Counting 0) 2 late_trace _ 2 "a" 0
                   (LoadResult true [] true) _ _ _ _ _ _)).
  - vm_compute. split; discriminate.
  - vm_compute. reflexivity.
  - reflexivity.
  - reflexivity.
  - reflexivity.
  - reflexivity.
Defined.

(** C8. Two calls of [Load(key)], the second started after the first
    has returned (its record deleted): each allocates its own record and
    calls [l.p.Load] once for it, and returns what that call gave. *)
Theorem C8_back_to_back {P} `{ProxyLoader P} (p0 : P) n tr s k
    v1 b1 p1 v2 b2 p2 :
  (0 ≤ n ≤ int_max)%Z →
  exec tr (NewLoader p0 n) = Some s →
  mtx (ldr s.1) = false →
  inFlight (ldr s.1) !! k = None →
  0 < available s →
  Load (p (ldr s.1)) k = (Returns v1 b1, p1) →
  Load p1 k = (Returns v2 b2, p2) →
  ∃ s1 s2,
    exec (Go (CallLoad k) :: run_n (length s.2) 16) s = Some s1 ∧
    s1.2 !! length s.2 = Some (LRet k (length (heap s.1)) v1 b1) ∧
    inFlight (ldr s1.1) !! k = None ∧
    calls s1.1 = calls s.1 ++ [(length (heap s.1), k, Returns v1 b1)] ∧
    exec (Go (CallLoad k) :: run_n (S (length s.2)) 16) s1 = Some s2 ∧
    s2.2 !! length s.2 = Some (LRet k (length (heap s.1)) v1 b1) ∧
    s2.2 !! S (length s.2) = Some (LRet k (S (length (heap s.1))) v2 b2) ∧
    inFlight (ldr s2.1) = inFlight (ldr s.1) ∧
    calls s2.1 = calls s.1 ++ [(length (heap s.1), k, Returns v1 b1);
                               (S (length (heap s.1)), k, Returns v2 b2)] ∧
    calls_for (length (heap s.1)) (calls s2.1) = [(k, Returns v1 b1)] ∧
    calls_for (S (length (heap s.1))) (calls s2.1) = [(k, Returns v2 b2)].
Proof.
  intros Hn Hs Hm Hk Ha HL1 HL2.
  assert (Inv n s) as HI by (eapply Inv_exec; [by apply Inv_NewLoader|done]).
  pose proof (pool_bound n s HI) as Hb.
  pose proof (inv_log _ _ HI) as Hlog.
  destruct s as [w ts]. unfold available in *. cbn [fst snd] in *.
  eexists _, _. split; [by apply (Load_fresh w ts k v1 b1 p1)|].
  cbn [fst snd ldr inFlight calls heap].
  split; [by apply list_lookup_middle|]. split; [done|].
  split; [done|]. split.
  { match goal with |- exec _ (?w1, ?ts1) = _ =>
      replace (S (length ts)) with (length ts1)
        by (rewrite length_app; simpl; lia);
      by apply (Load_fresh w1 ts1 k v2 b2 p2)
    end. }
  cbn [fst snd ldr inFlight calls heap]. rewrite !length_app. simpl.
  replace (length (heap w) + 1) with (S (length (heap w))) by lia.
  split_and!; try done.
  - rewrite lookup_app_l by (rewrite length_app; simpl; lia).
    by apply list_lookup_middle.
  - apply list_lookup_middle. rewrite length_app. simpl. lia.
  - by rewrite <- app_assoc.
  - rewrite !calls_for_app, Hlog by lia. simpl.
    rewrite decide_True, decide_False by lia. done.
  - rewrite !calls_for_app, Hlog by lia. simpl.
    rewrite decide_False, decide_True by lia. done.
Qed.

(** On a fresh loader: two calls in a row, two calls of the loader. *)
Lemma C8_witness :
  ∃ s1 s2,
    exec (Go (CallLoad "k") :: run_n 1 16) (NewLoader (Counting 0) 2)
      = Some s1 ∧
    exec (Go (CallLoad "k") :: run_n 2 16) s1 = Some s2 ∧
    calls s2.1 = [(0, "k", Returns [] true);
                  (1, "k", Returns ["000"%byte] true)].
Proof.
  destruct (C8_back_to_back (Counting 0) 2 [] (NewLoader (Counting 0) 2) "k"
              [] true (Counting 1) ["000"%byte] true (Counting 2))
    as (s1 & s2 & E1 & _ & _ & _ & E2 & _ & _ & _ & E3 & _).
  - vm_compute. split; discriminate.
  - reflexivity.
  - reflexivity.
  - reflexivity.
  - vm_compute. lia.
  - reflexivity.
  - reflexivity.
  - exists s1, s2. split; [exact E1|]. split; [exact E2|exact E3].
Defined.



(** A goroutine at a line from which no step is possible stays there. *)
Lemma exec_stuck {P} `{ProxyLoader P} tr (s s' : state P) i t :
  (∀ w : world P, step_thread t w = None) →
  s.2 !! i = Some t → exec tr s = Some s' → s'.2 !! i = Some t.
Proof.
  intros Hstuck. revert s.
  induction tr as [|e tr IH]; intros s Hi Hs; simplify_eq/=; [done|].
  destruct (step e s) as [s1|] eqn:E; simplify_eq/=.
  apply (IH s1); [|done]. destruct s as [w ts]. destruct e as [c|a|].
  - simplify_eq/=. by apply lookup_app_l_Some.
  - destruct (step_Run_inv _ _ _ E) as (t0 & t' & Ha & Ht & ->). simpl in *.
    destruct (decide (a = i)) as [->|Hne].
    + rewrite Hi in Ha. injection Ha as <-. by rewrite Hstuck in Ht.
    + by rewrite list_lookup_insert_ne.
  - by simplify_eq/=.
Qed.

(** After the owner of record [f] has left [Load] by a panic, a waiter
    on that record never moves again. *)
Lemma panic_blocks {P} `{ProxyLoader P} n tr (s s' : state P) i j k k' f :
  Inv n s →
  s.2 !! i = Some (L61panic k f) → s.2 !! j = Some (L51 k' f) →
  exec tr s = Some s' → s'.2 !! j = Some (L51 k' f).
Proof.
  revert s. induction tr as [|e tr IH]; intros s HI Hi Hj Hs;
    simplify_eq/=; [done|].
  destruct (step e s) as [s1|] eqn:E; simplify_eq/=.
  pose proof (Inv_step n _ _ _ HI E) as HI1.
  pose proof (exec_stuck [e] s s1 i (L61panic k f) (λ _, eq_refl) Hi) as Hi1.
  simpl in Hi1. rewrite E in Hi1. specialize (Hi1 eq_refl).
  apply (IH s1); try done.
  pose proof (inv_thr _ _ HI i _ Hi) as (_ & Hf & _).
  destruct s as [w ts]. destruct e as [c|a|].
  - simplify_eq/=. by apply lookup_app_l_Some.
  - destruct (step_Run_inv _ _ _ E) as (t0 & t' & Ha & Ht & ->). simpl in *.
    destruct (decide (a = j)) as [->|Hne].
    + rewrite Hj in Ha. injection Ha as <-. simpl in Ht.
      by rewrite Hf in Ht.
    + by rewrite list_lookup_insert_ne.
  - by simplify_eq/=.
Qed.

(** C2, as stated, fails: when [l.p.Load] panics the owner leaves
    [Load] holding its token and without closing [done]; the waiter is
    at [<-f.done] in every later state, the token never comes back and
    the signal never fires. *)
Lemma C2_counterexample :
  ∃ s, exec boom_trace (NewLoader (Faulty 0) 2) = Some s ∧
       s.2 !! 1 = Some (L61panic "boom" 0) ∧
       s.2 !! 2 = Some (L51 "boom" 0) ∧
       ∀ tr' s', exec tr' s = Some s' →
         s'.2 !! 2 = Some (L51 "boom" 0) ∧
         step (Run 2) s' = None ∧
         heap s'.1 !! 0 = Some (LoadResult false [] false) ∧
         available s' + shrunk s'.1 < 2.
Proof.
  eexists. split; [vm_compute; reflexivity|].
  split; [reflexivity|]. split; [reflexivity|].
  intros tr' s' Hs'.
  match type of Hs' with exec _ ?s0 = _ => set (s := s0) in * end.
  assert (Inv 2 s) as HI.
  { apply (Inv_exec 2 boom_trace (NewLoader (Faulty 0) 2)).
    - apply Inv_NewLoader. vm_compute. split; discriminate.
    - vm_compute. reflexivity. }
  pose proof (Inv_exec 2 _ _ _ HI Hs') as HI'.
  pose proof (exec_stuck tr' s s' 1 (L61panic "boom" 0) (λ _, eq_refl)
                eq_refl Hs') as H1.
  pose proof (panic_blocks 2 tr' s s' 1 2 "boom" "boom" 0 HI eq_refl eq_refl Hs')
    as H2.
  pose proof (inv_thr _ _ HI' 1 _ H1) as (_ & Hf & _).
  pose proof (inv_tok _ _ HI') as Htok.
  pose proof (count_lookup holds_token _ _ _ H1 eq_refl) as Hc.
  split; [done|]. split; [|split; [done|]].
  - destruct s' as [w' ts']. simpl in *. rewrite H2. simpl. by rewrite Hf.
  - unfold available, on_loan in *.
    change (Z.to_nat 2) with 2 in Htok. lia.
Qed.

(** C2, amended. When the owner's call of [l.p.Load] returns, the owner
    puts its token back and then fires the signal, and no waiter of the
    record is blocked afterwards.  [Load] has no recovery path: when the
    call panics, the owner leaves [Load] at once, and from then on the
    token stays on loan, the signal is not fired, the record stays in
    the table and every waiter of the record is blocked. *)
Theorem C2_release_and_signal_on_return {P} `{ProxyLoader P} (p0 : P) n tr s
    i k f :
  (0 ≤ n ≤ int_max)%Z →
  exec tr (NewLoader p0 n) = Some s →
  s.2 !! i = Some (L61 k f) →
  (∀ v b p1, Load (p (ldr s.1)) k = (Returns v b, p1) →
     ∃ s1, exec (run_n i 5) s = Some s1 ∧
           s1.2 !! i = Some (L65 k f) ∧
           available s1 = S (available s) ∧
           on_loan s1 + 1 = on_loan s ∧
           ∀ tr' s', exec tr' s1 = Some s' →
             heap s'.1 !! f = Some (LoadResult true v b) ∧
             ∀ j k', s'.2 !! j = Some (L51 k' f) →
               is_Some (step (Run j) s')) ∧
  (∀ p1, Load (p (ldr s.1)) k = (Panics, p1) →
     ∃ s1, step (Run i) s = Some s1 ∧
           ∀ tr' s', exec tr' s1 = Some s' →
             s'.2 !! i = Some (L61panic k f) ∧
             1 ≤ on_loan s' ∧
             available s' + shrunk s'.1 < Z.to_nat n ∧
             heap s'.1 !! f = Some new_loadResult ∧
             inFlight (ldr s'.1) !! k = Some f ∧
             ∀ j k', s'.2 !! j = Some (L51 k' f) → step (Run j) s' = None).
Proof.
  intros Hn Hs Hi.
  assert (Inv n s) as HI by (eapply Inv_exec; [by apply Inv_NewLoader|done]).
  pose proof (token_room n s i _ HI Hi eq_refl) as Hroom.
  pose proof (inv_thr _ _ HI i _ Hi) as (Hk & Hf & Hc).
  pose proof (lookup_lt_Some _ _ _ Hi) as Hlt.
  pose proof (lookup_lt_Some _ _ _ Hf) as Hflt.
  pose proof (inv_tok _ _ HI) as Htok.
  split.
  - intros v b p1 HL. destruct s as [w ts]. cbn [fst snd] in *.
    pose proof (Load_signal w ts i k f v b p1 Hi Hf Hroom HL) as Hrun.
    pose proof (Inv_exec n _ _ _ HI Hrun) as HI1.
    pose proof (inv_tok _ _ HI1) as Htok1.
    eexists. split; [exact Hrun|].
    split; [by apply list_lookup_insert_eq|]. split; [done|].
    split; [unfold available, on_loan in *; simpl in *; lia|].
    intros tr' s' Hs'.
    assert (heap s'.1 !! f = Some (LoadResult true v b)) as Hf'.
    { eapply (exec_frozen n tr'); [exact HI1|exact Hs'| |done].
      cbn [fst heap]. by apply list_lookup_insert_eq. }
    split; [done|]. intros j k' Hj. destruct s' as [w' ts']. simpl in *.
    by rewrite Hj; simpl; rewrite Hf'.
  - intros p1 HL.
    assert (step_thread (L61 k f) s.1 =
              Some (L61panic k f,
                    World (MkLoader p1 (lproc (ldr s.1)) (mtx (ldr s.1))
                             (inFlight (ldr s.1)))
                          (heap s.1) (calls s.1 ++ [(f, k, Panics)])
                          (shrunk s.1))) as Ht
      by (simpl; by rewrite HL).
    pose proof (step_Run s i _ _ _ Hi Ht) as Hrun.
    pose proof (Inv_step n _ _ _ HI Hrun) as HI1.
    eexists. split; [exact Hrun|]. intros tr' s' Hs'.
    pose proof (Inv_exec n _ _ _ HI1 Hs') as HI'.
    assert (s'.2 !! i = Some (L61panic k f)) as Hi'.
    { eapply (exec_stuck tr'); [|  |exact Hs']; [done|].
      by apply list_lookup_insert_eq. }
    pose proof (inv_thr _ _ HI' i _ Hi') as (Hk' & Hf' & _).
    pose proof (inv_tok _ _ HI') as Htok'.
    pose proof (count_lookup holds_token _ _ _ Hi' eq_refl) as Hcnt.
    unfold available, on_loan in *.
    split_and!; try done; try lia.
    intros j k' Hj. destruct s' as [w' ts']. simpl in *.
    by rewrite Hj; simpl; rewrite Hf'.
Qed.

(** On [calling_trace]: the owner panics and keeps its token for ever. *)
Lemma C2_witness :
  ∃ s, exec calling_trace (NewLoader (Faulty 0) 2) = Some s ∧
  ∃ s1, step (Run 1) s = Some s1 ∧
        ∀ tr' s', exec tr' s1 = Some s' →
          s'.2 !! 1 = Some (L61panic "boom" 0) ∧ 1 ≤ on_loan s'.
Proof.
  eexists. split; [vm_compute; reflexivity|].
  destruct (proj2 (C2_release_and_signal_on_return (Faulty 0) 2 calling_trace
              _ 1 "boom" 0
              ltac:(vm_compute; split; discriminate)
              ltac:(vm_compute; reflexivity) eq_refl) (Faulty 1) eq_refl)
    as (s1 & E1 & E2).
  exists s1. split; [exact E1|]. intros tr' s' Hs'.
  destruct (E2 tr' s' Hs') as (? & ? & _). by split.
Defined.







(** C7, as stated, fails in its second half: [Status] returns
    [InflightLoad = 1], while in every state from its call to its return
    the number of keys with a blocked caller is 0 or 3, and the number of
    keys with a caller inside [Load] is 3. *)
Lemma C7_counterexample :
  ∃ s0 s st,
    exec status_trace (NewLoader (Counting 0) 2) = Some s0 ∧
    exec (run_n 4 8) s0 = Some s ∧
    s.2 !! 4 = Some (SRet st) ∧ InflightLoad st = 1%Z ∧
    Forall (λ s', (size (keys_blocked s') = 0 ∨ size (keys_blocked s') = 3) ∧
                  size (keys_in_Load s') = 3)
           (trajectory (run_n 4 8) s0).
Proof.
  eexists _, _, _. split; [vm_compute; reflexivity|].
  split; [vm_compute; reflexivity|].
  split; [vm_compute; reflexivity|]. split; [reflexivity|].
  match goal with
  | |- Forall _ ?l =>
      let l' := eval vm_compute in l in
      replace l with l' by (vm_compute; reflexivity)
  end.
  repeat (constructor;
          [split; [first [left; vm_compute; reflexivity
                         |right; vm_compute; reflexivity]
                  |vm_compute; reflexivity]|]).
  constructor.
Qed.

(** C7, amended. In every state, the running count that [Status]
    reports is between 0 and the maximum it reports (also for every
    result a call of [Status] has returned), and the in-flight count it
    reports is the size of the table, which holds exactly the keys whose
    owner is between its insertion (line 56) and its deletion (line 66),
    one owner per key. *)
Theorem C7_status_consistency {P} `{ProxyLoader P} (p0 : P) n tr s :
  (0 ≤ n ≤ int_max)%Z →
  exec tr (NewLoader p0 n) = Some s →
  (0 ≤ LoaderProc (snapshot s.1) ≤ MaxLoaderProc (snapshot s.1))%Z ∧
  (∀ i st, s.2 !! i = Some (SRet st) →
     (0 ≤ LoaderProc st ≤ MaxLoaderProc st)%Z) ∧
  dom (inFlight (ldr s.1)) = window_keys s.2 ∧
  InflightLoad (snapshot s.1) = Z.of_nat (size (window_keys s.2)) ∧
  InflightLoad (snapshot s.1) = Z.of_nat (count in_window s.2) ∧
  (∀ i j ti tj k f f', s.2 !! i = Some ti → s.2 !! j = Some tj →
     in_table ti = Some (k, f) → in_table tj = Some (k, f') → i = j).
Proof.
  intros Hn Hs.
  assert (Inv n s) as HI by (eapply Inv_exec; [by apply Inv_NewLoader|done]).
  pose proof (inv_tok _ _ HI) as Htok.
  pose proof (inv_max _ _ HI) as Hmax.
  assert (dom (inFlight (ldr s.1)) = window_keys s.2) as Hdom.
  { apply set_eq. intros k. unfold window_keys.
    rewrite elem_of_dom, elem_of_list_to_set, list_elem_of_omap. split.
    - intros [f Hk]. destruct (inv_tab _ _ HI k f Hk) as (i & t & Hi & Ht).
      exists t. split; [by eapply list_elem_of_lookup_2|]. by rewrite Ht.
    - intros (t & Hin & Ht). apply list_elem_of_lookup in Hin as [i Hi].
      destruct (in_table t) as [[k' f]|] eqn:E; simplify_eq/=.
      exists f. eapply in_table_lookup; [|done].
      apply (inv_thr _ _ HI i t Hi). }
  split_and!.
  - unfold snapshot, available in *. simpl. rewrite int_sub_small; lia.
  - unfold snapshot, available in *. simpl. rewrite int_sub_small; lia.
  - intros i st Hi. pose proof (inv_thr _ _ HI i _ Hi) as (-> & ? & _). lia.
  - done.
  - unfold snapshot. simpl. by rewrite <- Hdom, size_dom.
  - unfold snapshot. simpl. by rewrite (inv_size _ _ HI).
  - intros i j ti tj k f f' Hi Hj Hti Htj.
    destruct (decide (i = j)) as [|Hne]; [done|].
    destruct s as [w ts].
    by destruct (other_key n w ts i j ti tj k f f' HI Hi Hj Hne Hti).
Qed.

(** On [demo_trace]: the table holds the keys of the owners in the window. *)
Lemma C7_witness :
  ∃ s, exec demo_trace (NewLoader (Counting 0) 2) = Some s ∧
       dom (inFlight (ldr s.1)) = window_keys s.2.
Proof.
  eexists. split; [vm_compute; reflexivity|].
  refine (proj1 (proj2 (proj2
    (C7_status_consistency (Counting 0) 2 demo_trace _ _ _)))).
  - vm_compute. split; discriminate.
  - vm_compute. reflexivity.
Defined.

(** ** More of the loader: properties *)

Lemma count_exists g ts :
  1 ≤ count g ts → ∃ i t, ts !! i = Some t ∧ g t = true.
Proof.
  induction ts as [|a ts IH]; simpl; [lia|]. intros Hc.
  destruct (g a) eqn:E.
  - by exists 0, a.
  - destruct IH as (i & t & ? & ?); [simpl in Hc; lia|]. by exists (S i), t.
Qed.

Lemma count_none g ts :
  (∀ i t, ts !! i = Some t → g t = false) → count g ts = 0.
Proof.
  induction ts as [|a ts IH]; simpl; [done|]. intros Hg.
  rewrite (Hg 0 a eq_refl), IH; [done|]. intros i t Hi. by apply (Hg (S i)).
Qed.

Lemma count_mono g g' ts :
  (∀ t, g t = true → g' t = true) → count g ts ≤ count g' ts.
Proof.
  intros Hg. induction ts as [|a ts IH]; simpl; [done|].
  destruct (g a) eqn:E; [rewrite (Hg a E); simpl; lia|].
  destruct (g' a); simpl; lia.
Qed.

Lemma proc_mtx_inside t : holds_proc_mtx t = true → holds_mtx t = true.
Proof. by destruct t. Qed.

(** The holder of [l.mtx] is the only one who can hold [l.proc.mtx]. *)
Lemma proc_mtx_free {P} `{ProxyLoader P} n (s : state P) i t :
  Inv n s → s.2 !! i = Some t → holds_mtx t = true →
  holds_proc_mtx t = false → proc_mtx (lproc (ldr s.1)) = false.
Proof.
  intros HI Hi Hm Hp. pose proof (inv_pmtx _ _ HI) as Hc.
  pose proof (inv_mtx _ _ HI) as Hc'.
  destruct (proc_mtx (lproc (ldr s.1))); [|done]. simpl in Hc.
  destruct (count_exists holds_proc_mtx s.2) as (j & tj & Hj & Hpj); [lia|].
  assert (i = j) as ->.
  { eapply (count_unique holds_mtx s.2); eauto using proc_mtx_inside.
    rewrite Hc'. destruct (mtx (ldr s.1)); simpl; lia. }
  congruence.
Qed.

Lemma step_Run_None {P} `{ProxyLoader P} (s : state P) i t :
  s.2 !! i = Some t → step (Run i) s = None ↔ step_thread t s.1 = None.
Proof.
  destruct s as [w ts]. simpl. intros ->. simpl.
  destruct (step_thread t w) as [[? ?]|]; simpl; split; done.
Qed.

(** X1. [l.mtx] and [l.proc.mtx] are mutual exclusion locks for the
    lines they enclose: two goroutines are never both between a [Lock]
    and its [Unlock], and a mutex is held exactly when some goroutine is
    there. *)
Theorem mutex_exclusion {P} `{ProxyLoader P} (p0 : P) n tr s :
  (0 ≤ n ≤ int_max)%Z →
  exec tr (NewLoader p0 n) = Some s →
  (∀ i j ti tj, s.2 !! i = Some ti → s.2 !! j = Some tj →
     holds_mtx ti = true → holds_mtx tj = true → i = j) ∧
  (mtx (ldr s.1) = true ↔ ∃ i t, s.2 !! i = Some t ∧ holds_mtx t = true) ∧
  (proc_mtx (lproc (ldr s.1)) = true ↔
     ∃ i t, s.2 !! i = Some t ∧ holds_proc_mtx t = true).
Proof.
  intros Hn Hs.
  assert (Inv n s) as HI by (eapply Inv_exec; [by apply Inv_NewLoader|done]).
  pose proof (inv_mtx _ _ HI) as Hm. pose proof (inv_pmtx _ _ HI) as Hp.
  split_and!.
  - intros i j ti tj Hi Hj Hti Htj.
    eapply (count_unique holds_mtx s.2); eauto.
    rewrite Hm. destruct (mtx (ldr s.1)); simpl; lia.
  - split.
    + intros E. rewrite E in Hm. apply count_exists. simpl in Hm. lia.
    + intros (i & t & Hi & Ht). by eapply mtx_held.
  - split.
    + intros E. rewrite E in Hp. apply count_exists. simpl in Hp. lia.
    + intros (i & t & Hi & Ht).
      pose proof (count_lookup holds_proc_mtx _ _ _ Hi Ht).
      destruct (proc_mtx (lproc (ldr s.1))); [done|simpl in *; lia].
Qed.

(** On [late_trace]: the mutex is held, by the second call. *)
Lemma mutex_exclusion_witness :
  ∃ s, exec late_trace (NewLoader (Counting 0) 2) = Some s ∧
       (mtx (ldr s.1) = true ↔ ∃ i t, s.2 !! i = Some t ∧ holds_mtx t = true).
Proof.
  eexists. split; [vm_compute; reflexivity|].
  refine (proj1 (proj2 (mutex_exclusion (Counting 0) 2 late_trace _ _ _))).
  - vm_compute. split; discriminate.
  - vm_compute. reflexivity.
Defined.

(** X2. A call of [Load] can wait at three places only: for [l.mtx]
    (lines 48 and 65, while another goroutine holds it), for the signal
    of the record its lookup found (line 51, while [done] is open), and
    for a token (line 60, while the pool is empty).  At every other line
    its next step is possible: the [Unlock]s find the mutex locked,
    every record it reads exists, the send of line 62 finds room in the
    pool. *)
Theorem Load_waits_only_at {P} `{ProxyLoader P} (p0 : P) n tr s i t :
  (0 ≤ n ≤ int_max)%Z →
  exec tr (NewLoader p0 n) = Some s →
  s.2 !! i = Some t → is_Some (in_Load t) →
  step (Run i) s = None ↔
    (mtx (ldr s.1) = true ∧ ((∃ k, t = L48 k) ∨ ∃ k f, t = L65 k f)) ∨
    (∃ k f r, t = L51 k f ∧ heap s.1 !! f = Some r ∧ done r = false) ∨
    (∃ k f, t = L60 k f ∧ available s = 0).
Proof.
  intros Hn Hs Hi Hin.
  assert (Inv n s) as HI by (eapply Inv_exec; [by apply Inv_NewLoader|done]).
  rewrite (step_Run_None s i t Hi).
  pose proof (inv_thr _ _ HI i t Hi) as Hok.
  pose proof (mtx_held n s i t HI Hi) as Hm.
  pose proof (token_room n s i t HI Hi) as Hroom.
  destruct s as [w ts]. unfold available. simpl in *. clear Hs HI Hi.
  destruct Hin as [k0 Hin]. world w. simpl in *.
  destruct t; simplify_eq/=; unpack;
    try (specialize (Hm eq_refl)); try (specialize (Hroom eq_refl));
    simplify_eq/=; unfold lock, unlock, chan_recv, chan_send;
    repeat match goal with
    | E : ?h !! ?f = Some _ |- context [?h !! ?f] => rewrite E; simpl
    | E : is_Some (?h !! ?f) |- _ => destruct E as [? ?]
    | |- context [decide (?a < ?b)] => rewrite (decide_True (P := a < b)) by done
    | |- context [Load ?p ?k] => destruct (Load p k) as [[? ?|] ?]
    | |- context [if ?b then _ else _] => destruct b eqn:?
    | |- context [match chan_len ?c with _ => _ end] =>
        destruct (chan_len c) eqn:?
    | |- context [match ?m !! ?k with _ => _ end] => destruct (m !! k) eqn:?
    end; simpl.
  all: split; [try done|].
  all: try (intros [[? [[? ?]|(? & ? & ?)]]|[(? & ? & ? & ? & ? & ?)
                                           |(? & ? & ? & ?)]];
            simplify_eq/=; congruence || lia).
  all: intros _; eauto 8.
Qed.

(** On [full_trace]: the third owner waits for a token. *)
Lemma Load_waits_only_at_witness :
  ∃ s, exec full_trace (NewLoader (Counting 0) 2) = Some s ∧
       step (Run 3) s = None.
Proof.
  eexists. split; [vm_compute; reflexivity|].
  apply (Load_waits_only_at (Counting 0) 2 full_trace _ 3 (L60 "c" 2)).
  - vm_compute. split; discriminate.
  - vm_compute. reflexivity.
  - reflexivity.
  - by eexists.
  - right. right. by exists "c", 2.
Defined.

(** X3. A call of [Status] can wait only for [l.mtx] (line 81): once it
    holds [l.mtx] it finds [l.proc.mtx] free, and each of its later
    steps is possible, so the two locks cannot deadlock. *)
Theorem Status_waits_only_for_mtx {P} `{ProxyLoader P} (p0 : P) n tr s i t :
  (0 ≤ n ≤ int_max)%Z →
  exec tr (NewLoader p0 n) = Some s →
  s.2 !! i = Some t → in_Status t = true →
  (step (Run i) s = None ↔ t = S81 ∧ mtx (ldr s.1) = true) ∧
  (t = S83 → proc_mtx (lproc (ldr s.1)) = false).
Proof.
  intros Hn Hs Hi Hin.
  assert (Inv n s) as HI by (eapply Inv_exec; [by apply Inv_NewLoader|done]).
  rewrite (step_Run_None s i t Hi).
  pose proof (mtx_held n s i t HI Hi) as Hm.
  pose proof (proc_mtx_free n s i t HI Hi) as Hfree.
  pose proof (inv_pmtx _ _ HI) as Hp.
  pose proof (count_lookup holds_proc_mtx _ _ _ Hi) as Hc.
  destruct s as [w ts]. simpl in *. clear Hs HI Hi.
  world w. simpl in *.
  destruct t; simplify_eq/=; unfold lock, unlock;
    try (specialize (Hm eq_refl)); try (specialize (Hfree eq_refl eq_refl));
    try (specialize (Hc eq_refl)); simplify_eq/=.
  all: try (destruct pm; simpl in *; [|lia]).
  all: try (split; [split; [done|by intros [? ?]]|done]).
  destruct mt; simpl; split; try done; split; try done. by intros [_ ?].
Qed.

(** On [late_trace] with a call of [Status] added: it waits for the
    mutex that the second call of [Load] holds. *)
Lemma Status_waits_only_for_mtx_witness :
  ∃ s, exec (late_trace ++ [Go CallStatus]) (NewLoader (Counting 0) 2)
         = Some s ∧
       step (Run 3) s = None.
Proof.
  eexists. split; [vm_compute; reflexivity|].
  apply (Status_waits_only_for_mtx (Counting 0) 2
           (late_trace ++ [Go CallStatus]) _ 3 S81).
  - vm_compute. split; discriminate.
  - vm_compute. reflexivity.
  - reflexivity.
  - reflexivity.
  - by split.
Defined.

(** A step adds to the history only the outcome of a call of the
    loader. *)
Lemma step_calls_outcome {P} `{ProxyLoader P} e (s s' : state P) :
  step e s = Some s' →
  calls s'.1 = calls s.1 ∨
  ∃ i f k, e = Run i ∧ s.2 !! i = Some (L61 k f) ∧
           calls s'.1 = calls s.1 ++ [(f, k, (Load (p (ldr s.1)) k).1)].
Proof.
  intros Hs. destruct e as [c|i|].
  - destruct s. simplify_eq/=. by left.
  - destruct (step_Run_inv _ _ _ Hs) as (t & t' & Hi & Ht & _).
    destruct s as [w ts], s' as [w' ts']. simpl in *. clear Hs.
    destruct t; try (world w; stepped Ht; by left).
    right. exists i, f, key. simpl in Ht.
    destruct (Load (p (ldr w)) key) as [[v b|] p'] eqn:E; simplify_eq/=; eauto.
  - destruct s. simplify_eq/=. by left.
Qed.

Lemma calls_for_elem f k o c :
  calls_for f c = [(k, o)] → (f, k, o) ∈ c.
Proof.
  intros E. assert ((k, o) ∈ calls_for f c) as Hin by (rewrite E; left).
  unfold calls_for in Hin. apply list_elem_of_omap in Hin as ([[f' k'] o'] & ? & Hd).
  simpl in Hd. case_decide; simplify_eq/=. done.
Qed.

Lemma exec_no_panic {P} `{ProxyLoader P} tr (s s' : state P) :
  (∀ (q : P) k, (Load q k).1 ≠ Panics) →
  (∀ e, e ∈ calls s.1 → e.2 ≠ Panics) →
  exec tr s = Some s' → ∀ e, e ∈ calls s'.1 → e.2 ≠ Panics.
Proof.
  intros Hsafe. revert s.
  induction tr as [|e tr IH]; intros s Hc Hs; simplify_eq/=; [done|].
  destruct (step e s) as [s1|] eqn:E; simplify_eq/=.
  apply (IH s1); [|done].
  destruct (step_calls_outcome _ _ _ E) as [->|(i & f & k & _ & _ & ->)];
    [done|].
  intros x [Hx|Hx]%elem_of_app; [by apply Hc|].
  apply list_elem_of_singleton in Hx as ->. apply Hsafe.
Qed.

(** X4. A call of [Load] panics only where the loader it was made with
    panics: [close(f.done)] never finds the channel closed, a call that
    left by a panic did so at line 61 with the panic of [l.p.Load] for
    its key, and on a loader whose [Load] never panics no call of
    [Load] ever does. *)
Theorem Load_panics_only_with_loader {P} `{ProxyLoader P} (p0 : P) n tr s :
  (0 ≤ n ≤ int_max)%Z →
  exec tr (NewLoader p0 n) = Some s →
  (∀ i k f, s.2 !! i ≠ Some (L63panic k f)) ∧
  (∀ i k f, s.2 !! i = Some (L61panic k f) →
     (f, k, Panics) ∈ calls s.1) ∧
  ((∀ (q : P) k, (Load q k).1 ≠ Panics) →
     ∀ i k f, s.2 !! i ≠ Some (L61panic k f)).
Proof.
  intros Hn Hs.
  assert (Inv n s) as HI by (eapply Inv_exec; [by apply Inv_NewLoader|done]).
  assert (∀ i k f, s.2 !! i = Some (L61panic k f) →
            (f, k, Panics) ∈ calls s.1) as Hp.
  { intros i k f Hi. pose proof (inv_thr _ _ HI i _ Hi) as (_ & _ & Hc).
    by apply calls_for_elem. }
  split_and!.
  - intros i k f Hi. apply (inv_thr _ _ HI i _ Hi).
  - done.
  - intros Hsafe i k f Hi.
    apply (exec_no_panic tr (NewLoader p0 n) s Hsafe) with (e := (f, k, Panics));
      try done.
    + simpl. by intros e ?%elem_of_nil.
    + by eapply Hp.
Qed.

(** On [boom_trace]: the panic of the owner is the panic of the
    loader. *)
Lemma Load_panics_only_with_loader_witness :
  ∃ s, exec boom_trace (NewLoader (Faulty 0) 2) = Some s ∧
       (0, "boom", Panics) ∈ calls s.1.
Proof.
  eexists. split; [vm_compute; reflexivity|].
  destruct (Load_panics_only_with_loader (Faulty 0) 2 boom_trace _
              ltac:(vm_compute; split; discriminate)
              ltac:(vm_compute; reflexivity)) as (_ & Hx & _).
  exact (Hx 1 "boom" 0 eq_refl).
Defined.

(** X5. Admission bound: the goroutines inside the call of [l.p.Load]
    hold a token each, and the tokens on loan never exceed the
    [maxProc] the loader was made with, less the completed shrinks. *)
Theorem admission_bound {P} `{ProxyLoader P} (p0 : P) n tr s :
  (0 ≤ n ≤ int_max)%Z →
  exec tr (NewLoader p0 n) = Some s →
  count calling s.2 ≤ on_loan s ∧
  (Z.of_nat (on_loan s) ≤ n - Z.of_nat (shrunk s.1))%Z ∧
  (Z.of_nat (count calling s.2) ≤ maxProc (lproc (ldr s.1)))%Z.
Proof.
  intros Hn Hs.
  assert (Inv n s) as HI by (eapply Inv_exec; [by apply Inv_NewLoader|done]).
  pose proof (inv_tok _ _ HI) as Htok. pose proof (inv_max _ _ HI) as Hmax.
  assert (count calling s.2 ≤ on_loan s) as Hle
    by (apply count_mono; by intros []).
  unfold on_loan in *. split_and!; [done|lia|lia].
Qed.

(** On [full_trace]: two calls of the loader in progress, two tokens. *)
Lemma admission_bound_witness :
  ∃ s, exec full_trace (NewLoader (Counting 0) 2) = Some s ∧
       count calling s.2 = 2 ∧ count calling s.2 ≤ on_loan s.
Proof.
  eexists. split; [vm_compute; reflexivity|]. split; [reflexivity|].
  refine (proj1 (admission_bound (Counting 0) 2 full_trace _ _ _)).
  - vm_compute. split; discriminate.
  - vm_compute. reflexivity.
Defined.

(** X6. When every call has returned (no goroutine is inside [Load] or
    [Status], none has panicked), the loader is as [NewLoader] made it
    but for the completed shrinks: the table is empty, both mutexes are
    free, and every token that was not shrunk away is in the pool. *)
Theorem quiescent_loader {P} `{ProxyLoader P} (p0 : P) n tr s :
  (0 ≤ n ≤ int_max)%Z →
  exec tr (NewLoader p0 n) = Some s →
  (∀ i t, s.2 !! i = Some t → idle t = true) →
  inFlight (ldr s.1) = ∅ ∧
  mtx (ldr s.1) = false ∧ proc_mtx (lproc (ldr s.1)) = false ∧
  on_loan s = 0 ∧
  (Z.of_nat (available s) = n - Z.of_nat (shrunk s.1))%Z.
Proof.
  intros Hn Hs Hidle.
  assert (Inv n s) as HI by (eapply Inv_exec; [by apply Inv_NewLoader|done]).
  assert (∀ g, (∀ t, idle t = true → g t = false) → count g s.2 = 0) as Hz.
  { intros g Hg. apply count_none. intros i t Hi. apply Hg. by eapply Hidle. }
  pose proof (inv_tok _ _ HI) as Htok. pose proof (inv_size _ _ HI) as Hsz.
  pose proof (inv_mtx _ _ HI) as Hm. pose proof (inv_pmtx _ _ HI) as Hp.
  unfold on_loan in *.
  rewrite Hz in Htok by (by intros []). rewrite Hz in Hsz by (by intros []).
  rewrite Hz in Hm by (by intros []). rewrite Hz in Hp by (by intros []).
  split_and!.
  - by apply map_size_empty_iff.
  - by destruct (mtx (ldr s.1)).
  - by destruct (proc_mtx (lproc (ldr s.1))).
  - apply Hz. by intros [].
  - lia.
Qed.

(** On [quiet_trace]: after a [Load] and a [Status] have returned. *)
Lemma quiescent_loader_witness :
  ∃ s, exec quiet_trace (NewLoader (Counting 0) 2) = Some s ∧
       inFlight (ldr s.1) = ∅ ∧ available s = 2.
Proof.
  eexists. split; [vm_compute; reflexivity|].
  destruct (quiescent_loader (Counting 0) 2 quiet_trace _
              ltac:(vm_compute; split; discriminate)
              ltac:(vm_compute; reflexivity)) as (E & _).
  - intros [|[|[|[|?]]]] t Ht; vm_compute in Ht; by simplify_eq.
  - split; [exact E|reflexivity].
Defined.

(** Once the completed shrinks have used up [maxProc], they stay so and
    the history stops. *)
Lemma exhausted_exec {P} `{ProxyLoader P} n tr (s s' : state P) :
  Inv n s → shrunk s.1 = Z.to_nat n → exec tr s = Some s' →
  shrunk s'.1 = Z.to_nat n ∧ calls s'.1 = calls s.1.
Proof.
  revert s. induction tr as [|e tr IH]; intros s HI Hsh Hs; simplify_eq/=;
    [done|].
  destruct (step e s) as [s1|] eqn:E; simplify_eq/=.
  pose proof (Inv_step n _ _ _ HI E) as HI1.
  pose proof (inv_tok _ _ HI) as Htok. pose proof (inv_tok _ _ HI1) as Htok1.
  assert (shrunk s1.1 = Z.to_nat n) as Hsh1.
  { destruct (step_shrunk _ _ _ E) as [[E1 _]|(? & _ & _ & _ & E1 & _)]; lia. }
  assert (calls s1.1 = calls s.1) as Hc.
  { destruct (step_calls_outcome _ _ _ E) as [|(i & f & k & _ & Hi & _)];
      [done|].
    pose proof (count_lookup holds_token _ _ _ Hi eq_refl).
    unfold on_loan in *. lia. }
  destruct (IH s1 HI1 Hsh1 Hs) as [? ?]. split; [done|congruence].
Qed.

(** X7. When the completed shrinks have used up the [maxProc] the
    loader was made with (at once when it is 0), no token is in the pool
    or on loan, and from then on [l.p.Load] is never called again: every
    owner that reaches [<-l.start] waits there. *)
Theorem exhausted_gate {P} `{ProxyLoader P} (p0 : P) n tr s :
  (0 ≤ n ≤ int_max)%Z →
  exec tr (NewLoader p0 n) = Some s →
  shrunk s.1 = Z.to_nat n →
  ∀ tr' s', exec tr' s = Some s' →
    calls s'.1 = calls s.1 ∧
    available s' = 0 ∧ on_loan s' = 0 ∧
    ∀ i k f, s'.2 !! i = Some (L60 k f) → step (Run i) s' = None.
Proof.
  intros Hn Hs Hsh tr' s' Hs'.
  assert (Inv n s) as HI by (eapply Inv_exec; [by apply Inv_NewLoader|done]).
  pose proof (Inv_exec n _ _ _ HI Hs') as HI'.
  destruct (exhausted_exec n tr' s s' HI Hsh Hs') as [Hsh' Hc].
  pose proof (inv_tok _ _ HI') as Htok.
  assert (available s' = 0) as Ha by lia.
  split_and!; [done|done|lia|].
  intros i k f Hi. apply (step_Run_None s' i _ Hi). simpl.
  unfold available in Ha. unfold chan_recv. by rewrite Ha.
Qed.

(** On a loader made with [maxProc = 0]: the owner waits for ever and
    the loader is never called. *)
Lemma exhausted_gate_witness :
  ∃ s', exec (Go (CallLoad "a") :: run_n 1 5) (NewLoader (Counting 0) 0)
          = Some s' ∧
        calls s'.1 = [] ∧ step (Run 1) s' = None.
Proof.
  eexists. split; [vm_compute; reflexivity|].
  destruct (exhausted_gate (Counting 0) 0 [] (NewLoader (Counting 0) 0)
              ltac:(vm_compute; split; discriminate) eq_refl eq_refl
              (Go (CallLoad "a") :: run_n 1 5) _
              ltac:(vm_compute; reflexivity)) as (E1 & _ & _ & E2).
  split; [exact E1|]. exact (E2 1 "a" 0 eq_refl).
Defined.

(** One step of goroutine [i] of a call of [Status]. *)
Ltac status_step Hi :=
  erewrite exec_Run;
  [ | first [ exact Hi
            | apply list_lookup_insert_eq; rewrite ?length_insert;
              by eapply lookup_lt_Some ]
    | simpl; reflexivity ];
  rewrite ?list_insert_insert_eq.

Lemma Status_run {P} `{ProxyLoader P} (w : world P) ts i :
  ts !! i = Some S81 →
  mtx (ldr w) = false → proc_mtx (lproc (ldr w)) = false →
  exec (run_n i 8) (w, ts) = Some (w, <[i := SRet (snapshot w)]> ts).
Proof.
  intros Hi Hm Hp. world w.
  cbn [ldr lproc mtx proc_mtx] in *. subst. cbv [run_n replicate].
  do 8 status_step Hi. reflexivity.
Qed.

(** X8. A call of [Status] on a loader whose [l.mtx] is free, run
    alone, returns in eight steps the snapshot of the state, and leaves
    the loader exactly as it was: it reads only, and gives back both
    mutexes. *)
Theorem Status_alone {P} `{ProxyLoader P} (p0 : P) n tr s :
  (0 ≤ n ≤ int_max)%Z →
  exec tr (NewLoader p0 n) = Some s →
  mtx (ldr s.1) = false →
  exec (Go CallStatus :: run_n (length s.2) 8) s
    = Some (s.1, s.2 ++ [SRet (snapshot s.1)]) ∧
  MaxLoaderProc (snapshot s.1) = n ∧
  LoaderProc (snapshot s.1) = Z.of_nat (on_loan s + shrunk s.1) ∧
  InflightLoad (snapshot s.1) = Z.of_nat (size (inFlight (ldr s.1))).
Proof.
  intros Hn Hs Hm.
  assert (Inv n s) as HI by (eapply Inv_exec; [by apply Inv_NewLoader|done]).
  pose proof (inv_tok _ _ HI) as Htok. pose proof (inv_max _ _ HI) as Hmax.
  assert (proc_mtx (lproc (ldr s.1)) = false) as Hp.
  { pose proof (inv_pmtx _ _ HI) as Hc. pose proof (inv_mtx _ _ HI) as Hc'.
    rewrite Hm in Hc'. simpl in Hc'.
    pose proof (count_mono holds_proc_mtx holds_mtx s.2 proc_mtx_inside).
    destruct (proc_mtx (lproc (ldr s.1))); [simpl in *; lia|done]. }
  split_and!.
  - destruct s as [w ts]. cbn [fst snd] in *.
    change (exec (Go CallStatus :: run_n (length ts) 8) (w, ts))
      with (exec (run_n (length ts) 8) (w, ts ++ [S81])).
    rewrite (Status_run w (ts ++ [S81]) (length ts)); try done.
    + by rewrite insert_last.
    + by apply list_lookup_middle.
  - done.
  - unfold snapshot, available, on_loan in *. simpl.
    rewrite int_sub_small; lia.
  - done.
Qed.

(** On [full_trace]: [Status] reports 2 of 2 running, 3 in flight. *)
Lemma Status_alone_witness :
  ∃ s, exec full_trace (NewLoader (Counting 0) 2) = Some s ∧
       exec (Go CallStatus :: run_n (length s.2) 8) s
         = Some (s.1, s.2 ++ [SRet (snapshot s.1)]) ∧
       snapshot s.1 = MkStatus 2 2 3.
Proof.
  eexists. split; [vm_compute; reflexivity|].
  split; [|vm_compute; reflexivity].
  refine (proj1 (Status_alone (Counting 0) 2 full_trace _ _ _ _)).
  - vm_compute. split; discriminate.
  - vm_compute. reflexivity.
  - reflexivity.
Defined.

(** What a goroutine inside the window knows about the history: no
    call for its record yet, or one, made with its key. *)
Lemma window_calls n h m c t k f :
  thread_ok n h m c t → in_table t = Some (k, f) →
  calls_for f c = [] ∨ ∃ o, calls_for f c = [(k, o)].
Proof.
  destruct t; simpl; intros Hok ?; simplify_eq; unpack; eauto.
  done.
Qed.

(** The key under which a record is known: in the table, or in the
    history. *)
Lemma record_key {P} `{ProxyLoader P} n (s : state P) k k' f :
  Inv n s →
  inFlight (ldr s.1) !! k = Some f ∨ (∃ o, calls_for f (calls s.1) = [(k, o)]) →
  inFlight (ldr s.1) !! k' = Some f ∨ (∃ o, calls_for f (calls s.1) = [(k', o)]) →
  k = k'.
Proof.
  intros HI.
  assert (∀ k1 k2 o, inFlight (ldr s.1) !! k1 = Some f →
            calls_for f (calls s.1) = [(k2, o)] → k1 = k2) as Hmix.
  { intros k1 k2 o Hk Hc. destruct (inv_tab _ _ HI k1 f Hk) as (a & t & Ha & Ht).
    destruct (window_calls n _ _ _ t k1 f (inv_thr _ _ HI a t Ha) Ht)
      as [E|[o' E]]; congruence. }
  intros [Hk|[o Hc]] [Hk'|[o' Hc']].
  - destruct (inv_tab _ _ HI k f Hk) as (a & t & Ha & Ht).
    destruct (inv_tab _ _ HI k' f Hk') as (a' & t' & Ha' & Ht').
    assert (a = a') as ->.
    { eapply (inv_own _ _ HI a a' t t' f); eauto.
      - by destruct t; simplify_eq/=.
      - by destruct t'; simplify_eq/=. }
    congruence.
  - by eapply Hmix.
  - symmetry. by eapply Hmix.
  - congruence.
Qed.

Lemma attached_key {P} `{ProxyLoader P} n (s : state P) i t k f :
  Inv n s → s.2 !! i = Some t → attached t = Some (k, f) →
  (∃ k0, t = L56 k0 f) ∨
  inFlight (ldr s.1) !! k = Some f ∨ (∃ o, calls_for f (calls s.1) = [(k, o)]).
Proof.
  intros HI Hi Ha. pose proof (inv_thr _ _ HI i t Hi) as Hok.
  destruct t; simplify_eq/=; unpack; eauto 6.
  all: try done.
  all: match goal with E : _ ∨ _ |- _ => destruct E; eauto end.
Qed.

(** X9. Calls for different keys never share a record: two distinct
    keys of the table have distinct records, and two goroutines that
    have the same record, as owner or as waiter, were called with the
    same key. *)
Theorem keys_never_collapse {P} `{ProxyLoader P} (p0 : P) n tr s :
  (0 ≤ n ≤ int_max)%Z →
  exec tr (NewLoader p0 n) = Some s →
  (∀ k k' f, inFlight (ldr s.1) !! k = Some f →
     inFlight (ldr s.1) !! k' = Some f → k = k') ∧
  (∀ i j ti tj k k' f, s.2 !! i = Some ti → s.2 !! j = Some tj →
     attached ti = Some (k, f) → attached tj = Some (k', f) → k = k').
Proof.
  intros Hn Hs.
  assert (Inv n s) as HI by (eapply Inv_exec; [by apply Inv_NewLoader|done]).
  split.
  - intros k k' f Hk Hk'. eapply (record_key n s); eauto.
  - assert (∀ i j ti tj k k' f, s.2 !! i = Some ti → s.2 !! j = Some tj →
              (∃ k0, ti = L56 k0 f) → attached ti = Some (k, f) →
              attached tj = Some (k', f) → k = k') as H56.
    { intros i j ti tj k k' f Hi Hj [k0 ->] Hai Haj. simpl in Hai.
      injection Hai as ->.
      pose proof (inv_thr _ _ HI i _ Hi) as (_ & _ & Hc). simpl in Hc.
      destruct (attached_key n s j tj k' f HI Hj Haj) as [[k1 ->]|[Hk|[o Ho]]].
      - assert (i = j) as -> by (by eapply (inv_own _ _ HI i j _ _ f)).
        simpl in Haj. congruence.
      - destruct (inv_tab _ _ HI k' f Hk) as (a & t & Ha & Ht).
        assert (i = a) as ->.
        { eapply (inv_own _ _ HI i a _ t f); eauto.
          by destruct t; simplify_eq/=. }
        by simplify_eq.
      - congruence. }
    intros i j ti tj k k' f Hi Hj Hai Haj.
    destruct (attached_key n s i ti k f HI Hi Hai) as [Hl|Hi'];
      [by eapply (H56 i j)|].
    destruct (attached_key n s j tj k' f HI Hj Haj) as [Hl|Hj'];
      [symmetry; by eapply (H56 j i)|].
    by eapply (record_key n s).
Qed.

(** On [late_trace]: the owner and the late caller have the key "a". *)
Lemma keys_never_collapse_witness :
  ∃ s, exec (late_trace ++ [Run 2]) (NewLoader (Counting 0) 2) = Some s ∧
       s.2 !! 1 = Some (L65 "a" 0) ∧ s.2 !! 2 = Some (L50 "a" 0) ∧
       ∀ k k' f, inFlight (ldr s.1) !! k = Some f →
         inFlight (ldr s.1) !! k' = Some f → k = k'.
Proof.
  eexists. split; [vm_compute; reflexivity|].
  split; [reflexivity|]. split; [reflexivity|].
  refine (proj1 (keys_never_collapse (Counting 0) 2 (late_trace ++ [Run 2])
                   _ _ _)).
  - vm_compute. split; discriminate.
  - vm_compute. reflexivity.
Defined.

(** The shrink signals in the channel, being processed and completed
    grow by one with each signal sent, and only then. *)
Lemma step_signals {P} `{ProxyLoader P} e (s s' : state P) :
  step e s = Some s' →
  quit (lproc (ldr s'.1)) + count at_B32 s'.2 + shrunk s'.1 =
    quit (lproc (ldr s.1)) + count at_B32 s.2 + shrunk s.1
    + shrinks_sent [e] ∧
  count background s'.2 = count background s.2.
Proof.
  intros Hs. destruct e as [c|i|].
  - destruct s. simplify_eq/=. rewrite !count_app. by destruct c; simpl; lia.
  - destruct (step_Run_inv _ _ _ Hs) as (t & t' & Hi & Ht & Hts).
    pose proof (count_insert at_B32 _ _ _ t' Hi) as E1.
    pose proof (count_insert background _ _ _ t' Hi) as E2.
    destruct s as [w ts], s' as [w' ts']. simpl in *. subst ts'. clear Hs.
    world w. destruct t; stepped Ht; simpl in *; lia.
  - destruct s. simplify_eq/=. lia.
Qed.

(** X10. No shrink signal is lost or counted twice: the signals sent on
    [l.quit] are those still in the channel, the one the background
    goroutine has received and not yet applied (line 32), and the
    completed ones; and there is exactly one background goroutine, so at
    most one signal is at line 32. *)
Theorem shrink_signals_conserved {P} `{ProxyLoader P} (p0 : P) n tr s :
  exec tr (NewLoader p0 n) = Some s →
  quit (lproc (ldr s.1)) + count at_B32 s.2 + shrunk s.1 = shrinks_sent tr ∧
  count background s.2 = 1 ∧ count at_B32 s.2 ≤ 1.
Proof.
  assert (∀ tr (s0 s : state P), exec tr s0 = Some s →
    quit (lproc (ldr s.1)) + count at_B32 s.2 + shrunk s.1 =
      quit (lproc (ldr s0.1)) + count at_B32 s0.2 + shrunk s0.1
      + shrinks_sent tr ∧
    count background s.2 = count background s0.2) as Hgen.
  { clear. intros tr. induction tr as [|e tr IH]; intros s0 s Hs;
      simplify_eq/=; [split; [lia|done]|].
    destruct (step e s0) as [s1|] eqn:E; simplify_eq/=.
    destruct (step_signals _ _ _ E) as [E1 E2].
    destruct (IH _ _ Hs) as [E3 E4]. split; [|congruence].
    rewrite E3, E1. simpl. destruct e; simpl; lia. }
  intros Hs. destruct (Hgen _ _ _ Hs) as [E1 E2]. simpl in *.
  split_and!; [lia|done|].
  rewrite <- E2. apply count_mono. by intros [].
Qed.

(** On [shrink_trace]: two signals sent, one completed, one at line
    32. *)
Lemma shrink_signals_conserved_witness :
  ∃ s, exec shrink_trace (NewLoader (Counting 0) 2) = Some s ∧
       shrunk s.1 = 1 ∧ count at_B32 s.2 = 1 ∧
       quit (lproc (ldr s.1)) + count at_B32 s.2 + shrunk s.1 = 2.
Proof.
  eexists. split; [vm_compute; reflexivity|].
  split; [reflexivity|]. split; [reflexivity|].
  refine (proj1 (shrink_signals_conserved (Counting 0) 2 shrink_trace _ _)).
  vm_compute. reflexivity.
Defined.

(** X11. A call of [Load(key)] on a loader with [l.mtx] free, no record
    for the key and a token in the pool, run alone while the loader's
    [Load] returns [(v, b)]: it returns [(v, b)] after calling the
    loader once, with its key, and leaves the table, the pool and the
    mutexes as they were; the loader's own state is what that one call
    left. *)
Theorem Load_alone_contract {P} `{ProxyLoader P} (p0 : P) n tr s k v b p1 :
  (0 ≤ n ≤ int_max)%Z →
  exec tr (NewLoader p0 n) = Some s →
  mtx (ldr s.1) = false →
  inFlight (ldr s.1) !! k = None →
  0 < available s →
  Load (p (ldr s.1)) k = (Returns v b, p1) →
  ∃ s', exec (Go (CallLoad k) :: run_n (length s.2) 16) s = Some s' ∧
        s'.2 = s.2 ++ [LRet k (length (heap s.1)) v b] ∧
        p (ldr s'.1) = p1 ∧
        lproc (ldr s'.1) = lproc (ldr s.1) ∧
        mtx (ldr s'.1) = false ∧
        inFlight (ldr s'.1) = inFlight (ldr s.1) ∧
        calls s'.1 = calls s.1 ++ [(length (heap s.1), k, Returns v b)] ∧
        heap s'.1 = heap s.1 ++ [LoadResult true v b].
Proof.
  intros Hn Hs Hm Hk Ha HL.
  assert (Inv n s) as HI by (eapply Inv_exec; [by apply Inv_NewLoader|done]).
  pose proof (pool_bound n s HI) as Hb.
  destruct s as [w ts]. unfold available in *. cbn [fst snd] in *.
  eexists. split; [by apply (Load_fresh w ts k v b p1)|].
  by split_and!.
Qed.

(** On a fresh loader: [Load("k")] returns the first answer of the
    counting loader. *)
Lemma Load_alone_contract_witness :
  ∃ s', exec (Go (CallLoad "k") :: run_n 1 16) (NewLoader (Counting 0) 2)
          = Some s' ∧
        s'.2 = [B31; LRet "k" 0 [] true] ∧ p (ldr s'.1) = Counting 1.
Proof.
  destruct (Load_alone_contract (Counting 0) 2 [] (NewLoader (Counting 0) 2)
              "k" [] true (Counting 1)
              ltac:(vm_compute; split; discriminate) eq_refl eq_refl eq_refl
              ltac:(vm_compute; lia) eq_refl) as (s' & E1 & E2 & E3 & _).
  exists s'. split; [exact E1|]. split; [exact E2|exact E3].
Defined.
